(** * Batched technical indicators (RSI, Bollinger Bands, MACD)

    A shallow embedding of [src/lib/gpu-accelerated-indicators.py]
    (class [GPUIndicators]) and the properties its specification states.

    - A 2-D array is a record of its column count and its rows; the
      row count is the length of the row list.
    - Python exceptions are an error monad ([result]).
    - The kernels are written once, over a scalar interface ([Scalar]):
      the operations CuPy applies to array elements.  Two interpretations
      are given.  [binary32] is IEEE-754 single precision (the dtype the
      code asks for, [cp.float32]), round-to-nearest-even, reductions
      taken left to right.  [exact_real] interprets the same operations
      over the real numbers, with one extra value for not-a-number; it
      neither rounds nor overflows, so a statement over it says less
      than the same statement in single precision, and only
      supplementary lemmas are stated over it.
    - Scalars computed at Python level ([alpha], [1 - alpha]) are taken
      in the arithmetic of the array they are multiplied into, where
      Python computes them in double precision: the two differ in the
      last bits of a single-precision result.  The statements below
      are either for every arithmetic or about cells those bits do not
      reach.
    - [period] ranges over the non-negative Python ints. *)

From Stdlib Require Import ZArith Reals Lra SpecFloat.
From stdpp Require Import base list.

(** ** Python layer: exceptions *)

Inductive exn := IndexError | ZeroDivisionError | ValueError.

Inductive result (A : Type) :=
  | Ok (a : A)
  | Raise (e : exn).
Arguments Ok {A} a.
Arguments Raise {A} e.

#[global] Instance result_ret : MRet result := @Ok.
#[global] Instance result_bind : MBind result := λ A B f m,
  match m with
  | Ok a => f a
  | Raise e => Raise e
  end.

(** [for x in xs: s = body(s, x)], stopping at the first exception. *)
Fixpoint for_each {St X : Type} (body : St → X → result St)
    (s : St) (xs : list X) : result St :=
  match xs with
  | [] => Ok s
  | x :: xs' => s' ← body s x; for_each body s' xs'
  end.

(** ** Python layer: indices, slices and ranges *)

(** An integer index into an axis of size [len]: negative indices count
    from the end, anything else out of range raises [IndexError]. *)
Definition py_index (len : nat) (i : Z) : result nat :=
  if decide (0 ≤ i < Z.of_nat len)%Z then Ok (Z.to_nat i)
  else if decide (- Z.of_nat len ≤ i < 0)%Z then Ok (Z.to_nat (i + Z.of_nat len))
  else Raise IndexError.

(** A slice bound is clamped to the axis, never raises. *)
Definition py_slice_bound (len : nat) (i : Z) : nat :=
  if decide (i < 0)%Z then Z.to_nat (Z.max 0 (i + Z.of_nat len))
  else Z.to_nat (Z.min i (Z.of_nat len)).

(** [l[lo:hi]] *)
Definition py_slice {A : Type} (l : list A) (lo hi : Z) : list A :=
  let lo' := py_slice_bound (length l) lo in
  let hi' := py_slice_bound (length l) hi in
  take (hi' - lo') (drop lo' l).

(** [range(lo, hi)] *)
Definition py_range (lo hi : Z) : list Z :=
  (λ k : nat, (lo + Z.of_nat k)%Z) <$> seq 0 (Z.to_nat (hi - lo)).

(** [range(lo, hi)] for non-negative bounds. *)
Definition range (lo hi : nat) : list nat := seq lo (hi - lo).

(** ** Arrays *)

(** A 2-D array of shape [(length rows, ncols)]. *)
Record ndarray (A : Type) := mk_ndarray {
  ncols : nat;
  rows : list (list A)
}.
Arguments mk_ndarray {A} ncols rows.
Arguments ncols {A} _.
Arguments rows {A} _.

(** Every row has [ncols] cells. *)
Definition wf {A : Type} (a : ndarray A) : Prop :=
  Forall (λ row, length row = ncols a) (rows a).

(** The cell [a[r, i]], when it exists. *)
Definition cell {A : Type} (a : ndarray A) (r i : nat) : option A :=
  rows a !! r ≫= λ row, row !! i.

(** The array of [ncols] columns whose cell [[r, i]] is [f row i] for
    the [r]-th row of [rs]: how the specification describes an output,
    column by column from the input row. *)
Definition tabulate {A B : Type} (ncols : nat) (f : list A → nat → B)
    (rs : list (list A)) : ndarray B :=
  mk_ndarray ncols ((λ row : list A, f row <$> seq 0 ncols) <$> rs).

(** [a.shape], the pair [(batch_size, data_length)]. *)
Definition shape {A : Type} (a : ndarray A) : nat * nat :=
  (length (rows a), ncols a).

(** ** The scalar interface *)

Class Scalar : Type := {
  (** an array element ([cp.float32]) *)
  num : Type;
  (** a Python float, the element of a nested list *)
  pyfloat : Type;
  (** [np.float32(x)] *)
  to_num : pyfloat → num;
  (** [cp.nan], the sentinel *)
  nan : num;
  (** an integer literal or count as a float *)
  lit : Z → num;
  (** the literal [1e-10] *)
  eps : num;
  fadd : num → num → num;
  fsub : num → num → num;
  fmul : num → num → num;
  fdiv : num → num → num;
  fneg : num → num;
  fsqrt : num → num;
  (** [x < y] *)
  flt : num → num → bool
}.

Declare Scope num_scope.
Delimit Scope num_scope with num.
Infix "+" := fadd : num_scope.
Infix "-" := fsub : num_scope.
Infix "*" := fmul : num_scope.
Infix "/" := fdiv : num_scope.
Notation "- x" := (fneg x) : num_scope.

(** ** The CuPy operations the kernels use *)

Module cp.
Section Shape.
Context {A : Type}.

(** [cp.full((batch_size, data_length), x)] *)
Definition full (batch_size data_length : nat) (x : A) : ndarray A :=
  mk_ndarray data_length (replicate batch_size (replicate data_length x)).

(** [cp.full_like(a, x)] *)
Definition full_like (a : ndarray A) (x : A) : ndarray A :=
  full (length (rows a)) (ncols a) x.

(** [a[:, i] = v] for a non-negative [i]; [v] has one value per row. *)
Definition setitem_col (a : ndarray A) (i : nat) (v : list A)
    : result (ndarray A) :=
  if decide (i < ncols a)
  then Ok (mk_ndarray (ncols a)
             (zip_with (λ row x, <[i:=x]> row) (rows a) v))
  else Raise IndexError.

(** [a[:, i] = v] for any integer [i]. *)
Definition setitem_col_int (a : ndarray A) (i : Z) (v : list A)
    : result (ndarray A) :=
  j ← py_index (ncols a) i; setitem_col a j v.
End Shape.

Section Numeric.
Context {Sc : Scalar}.
Local Open Scope num_scope.

(** The column [i] of the rows [xs]: the one-column slice
    [xs[:, i:i+1]], or [xs[:, i]] flattened.  The kernels read it at
    column indices below the row length only. *)
Definition column (xs : list (list num)) (i : nat) : list num :=
  (λ row : list num, default nan (row !! i)) <$> xs.

(** [a[:, i]] for a non-negative [i]. *)
Definition getitem_col (a : ndarray num) (i : nat) : result (list num) :=
  if decide (i < ncols a) then Ok (column (rows a) i)
  else Raise IndexError.

(** [cp.diff(row)]: [diff[i] = row[i+1] - row[i]]. *)
Definition diff (row : list num) : list num :=
  zip_with (λ x y, y - x) row (drop 1 row).

Definition sum (row : list num) : num := foldl fadd (lit 0) row.

(** [cp.mean(row)]; not-a-number on an empty row (0/0). *)
Definition mean (row : list num) : num :=
  sum row / lit (Z.of_nat (length row)).

(** [cp.std(row)], the population standard deviation. *)
Definition std (row : list num) : num :=
  let m := mean row in
  fsqrt (mean ((λ x, (x - m) * (x - m)) <$> row)).
End Numeric.
End cp.

(** ** The indicator kernels *)

Module GPUIndicators.
Section Kernels.
Context {Sc : Scalar}.
Local Open Scope num_scope.

(** [cp.where(d > 0, d, 0)] on one cell *)
Definition gain (d : num) : num := if flt (lit 0) d then d else lit 0.

(** [cp.where(d < 0, -d, 0)] on one cell *)
Definition loss (d : num) : num := if flt d (lit 0) then - d else lit 0.

(** [100 - (100 / (1 + rs))] with [rs = avg_gain / (avg_loss + 1e-10)] *)
Definition rsi_of (avg_gain avg_loss : num) : num :=
  let rs := avg_gain / (avg_loss + eps) in
  lit 100 - lit 100 / (lit 1 + rs).

(** [alpha * x + (1 - alpha) * avg] *)
Definition smooth (alpha x avg : num) : num :=
  alpha * x + (lit 1 - alpha) * avg.

(** The body of [for i in range(period + 1, data_length)]; the state
    is (avg_gains, avg_losses, rsi_values). *)
Definition rsi_step (alpha : num) (gains losses : list (list num))
    (st : list num * list num * ndarray num) (i : nat)
    : result (list num * list num * ndarray num) :=
  let '(avg_gains, avg_losses, rsi_values) := st in
  let avg_gains :=
    zip_with (smooth alpha) (cp.column gains (i - 1)) avg_gains in
  let avg_losses :=
    zip_with (smooth alpha) (cp.column losses (i - 1)) avg_losses in
  rsi_values ← cp.setitem_col rsi_values i
                 (zip_with rsi_of avg_gains avg_losses);
  Ok (avg_gains, avg_losses, rsi_values).

(** [rsi_batch] after the transfer to the device. *)
Definition rsi_kernel (prices_gpu : ndarray num) (period : nat)
    : result (ndarray num) :=
  let batch_size := length (rows prices_gpu) in
  let data_length := ncols prices_gpu in
  let price_diffs : list (list num) := cp.diff <$> rows prices_gpu in
  let gains : list (list num) := (λ d : list num, gain <$> d) <$> price_diffs in
  let losses : list (list num) := (λ d : list num, loss <$> d) <$> price_diffs in
  let rsi_values := cp.full batch_size data_length nan in
  if decide (period ≤ data_length) then
    let avg_gains : list num := (λ g : list num, cp.mean (take period g)) <$> gains in
    let avg_losses : list num := (λ l : list num, cp.mean (take period l)) <$> losses in
    rsi_values ← cp.setitem_col rsi_values period
                   (zip_with rsi_of avg_gains avg_losses);
    alpha ← (if decide (period = 0) then Raise ZeroDivisionError
             else Ok (lit 1 / lit (Z.of_nat period)));
    '(_, _, rsi_values) ← for_each (rsi_step alpha gains losses)
                            (avg_gains, avg_losses, rsi_values)
                            (range (period + 1) data_length);
    Ok rsi_values
  else Ok rsi_values.

(** The body of [for i in range(period - 1, data_length)] of
    [bollinger_bands_batch]; the state is (upper, middle, lower). *)
Definition bollinger_step (prices : list (list num)) (period : nat)
    (std_multiplier : num)
    (bands : ndarray num * ndarray num * ndarray num) (i : Z)
    : result (ndarray num * ndarray num * ndarray num) :=
  let '(upper_band, middle_band, lower_band) := bands in
  let window_data : list (list num) :=
    (λ row : list num, py_slice row (i - Z.of_nat period + 1) (i + 1)) <$> prices in
  let ma : list num := cp.mean <$> window_data in
  middle_band ← cp.setitem_col_int middle_band i ma;
  let std : list num := cp.std <$> window_data in
  upper_band ← cp.setitem_col_int upper_band i
                 (zip_with (λ m s, m + std_multiplier * s) ma std);
  lower_band ← cp.setitem_col_int lower_band i
                 (zip_with (λ m s, m - std_multiplier * s) ma std);
  Ok (upper_band, middle_band, lower_band).

(** [bollinger_bands_batch] after the transfer to the device. *)
Definition bollinger_kernel (prices_gpu : ndarray num) (period : nat)
    (std_multiplier : num)
    : result (ndarray num * ndarray num * ndarray num) :=
  let batch_size := length (rows prices_gpu) in
  let data_length := ncols prices_gpu in
  let upper_band := cp.full batch_size data_length nan in
  let middle_band := cp.full batch_size data_length nan in
  let lower_band := cp.full batch_size data_length nan in
  for_each (bollinger_step (rows prices_gpu) period std_multiplier)
    (upper_band, middle_band, lower_band)
    (py_range (Z.of_nat period - 1) (Z.of_nat data_length)).

(** The body of [for i in range(1, data.shape[1])] of [_ema_gpu]. *)
Definition ema_step (alpha : num) (data : ndarray num)
    (ema : ndarray num) (i : nat) : result (ndarray num) :=
  d ← cp.getitem_col data i;
  e ← cp.getitem_col ema (i - 1);
  cp.setitem_col ema i (zip_with (λ x y, alpha * x + (lit 1 - alpha) * y) d e).

Definition _ema_gpu (data : ndarray num) (period : nat)
    : result (ndarray num) :=
  let alpha := lit 2 / lit (Z.of_nat period + 1) in
  let ema := cp.full_like data nan in
  d0 ← cp.getitem_col data 0;
  ema ← cp.setitem_col ema 0 d0;
  for_each (ema_step alpha data) ema (range 1 (ncols data)).

(** Cell by cell [a - b] of two arrays of one shape. *)
Definition array_sub (a b : ndarray num) : ndarray num :=
  mk_ndarray (ncols a) (zip_with (zip_with fsub) (rows a) (rows b)).

(** [macd_batch] after the transfer to the device. *)
Definition macd_kernel (prices_gpu : ndarray num)
    (fast_period slow_period signal_period : nat)
    : result (ndarray num * ndarray num * ndarray num) :=
  fast_ema ← _ema_gpu prices_gpu fast_period;
  slow_ema ← _ema_gpu prices_gpu slow_period;
  let macd_line := array_sub fast_ema slow_ema in
  signal_line ← _ema_gpu macd_line signal_period;
  let histogram := array_sub macd_line signal_line in
  Ok (macd_line, signal_line, histogram).

(** What a caller may pass as [price_data]: a nested list of Python
    floats, or a host array of dtype float32 (of one or two
    dimensions; [ndarray] is the two-dimensional one). *)
Inductive host_array :=
  | Array1D (v : list num)
  | Array2D (a : ndarray num).

Inductive price_data :=
  | PyList (l : list (list pyfloat))
  | NdArray (h : host_array).

(** [np.array(l, dtype=np.float32)]: rows of one length give a 2-D
    array, the empty list the 1-D array of shape (0,), ragged rows
    raise. *)
Definition np_array (l : list (list pyfloat)) : result host_array :=
  match l with
  | [] => Ok (Array1D [])
  | row :: _ =>
      if decide (Forall (λ r : list pyfloat, length r = length row) l)
      then Ok (Array2D (mk_ndarray (length row)
                          ((λ r : list pyfloat, to_num <$> r) <$> l)))
      else Raise ValueError
  end.

(** The first lines of every public method: the list conversion,
    [cp.asarray(price_data, dtype=cp.float32)], and
    [batch_size, data_length = prices_gpu.shape]. *)
Definition to_gpu (price_data_arg : price_data) : result (ndarray num) :=
  h ← match price_data_arg with
      | PyList l => np_array l
      | NdArray h => Ok h
      end;
  match h with
  | Array1D _ => Raise ValueError
  | Array2D a => Ok a
  end.

Definition rsi_batch (price_data_arg : price_data) (period : nat)
    : result (ndarray num) :=
  prices_gpu ← to_gpu price_data_arg; rsi_kernel prices_gpu period.

Definition bollinger_bands_batch (price_data_arg : price_data)
    (period : nat) (std_multiplier : num)
    : result (ndarray num * ndarray num * ndarray num) :=
  prices_gpu ← to_gpu price_data_arg;
  bollinger_kernel prices_gpu period std_multiplier.

Definition macd_batch (price_data_arg : price_data)
    (fast_period slow_period signal_period : nat)
    : result (ndarray num * ndarray num * ndarray num) :=
  prices_gpu ← to_gpu price_data_arg;
  macd_kernel prices_gpu fast_period slow_period signal_period.
End Kernels.
End GPUIndicators.

Import GPUIndicators.

(** ** Two interpretations of the scalars *)

(** IEEE-754 binary32 on [spec_float]; Python floats are binary64. *)
Module Binary32.
Definition prec : Z := 24.
Definition emax : Z := 128.

Definition of_Z (n : Z) : spec_float := binary_normalize prec emax n 0 false.

(** Rounding a binary64 value to binary32. *)
Definition of_double (x : spec_float) : spec_float :=
  match x with
  | S754_finite s m e =>
      binary_normalize prec emax (cond_Zopp s (Zpos m)) e false
  | _ => x
  end.

Definition double_of_Z (n : Z) : spec_float :=
  binary_normalize 53 1024 n 0 false.

(** The Python literal [1e-10], as it enters a float32 operation. *)
Definition eps32 : spec_float :=
  of_double (SFdiv 53 1024 (double_of_Z 1) (double_of_Z (10 ^ 10))).

(** [1.0] *)
Definition one : spec_float := S754_finite false 8388608 (-23).

(** Not negative, and finite with a magnitude below [2^105]. *)
Definition small (x : spec_float) : Prop :=
  match x with
  | S754_zero s => s = false
  | S754_finite s m e => s = false ∧ (Zpos (digits2_pos m) + e <= 105)%Z
  | _ => False
  end.

Definition finite_or_zero (x : spec_float) : Prop :=
  match x with
  | S754_zero _ | S754_finite _ _ _ => True
  | _ => False
  end.

(** A finite float32 value: a zero, or a mantissa and exponent in
    canonical form. *)
Definition finite (x : spec_float) : Prop :=
  match x with
  | S754_zero _ => True
  | S754_finite _ m e => bounded prec emax m e = true
  | _ => False
  end.

(** Equal as [==] compares finite floats: the same value, or two
    zeros. *)
Definition same (y x : spec_float) : Prop :=
  y = x ∨ ∃ s s', x = S754_zero s ∧ y = S754_zero s'.
End Binary32.

Definition binary32 : Scalar := {|
  num := spec_float;
  pyfloat := spec_float;
  to_num := Binary32.of_double;
  nan := S754_nan;
  lit := Binary32.of_Z;
  eps := Binary32.eps32;
  fadd := SFadd Binary32.prec Binary32.emax;
  fsub := SFsub Binary32.prec Binary32.emax;
  fmul := SFmul Binary32.prec Binary32.emax;
  fdiv := SFdiv Binary32.prec Binary32.emax;
  fneg := SFopp;
  fsqrt := SFsqrt Binary32.prec Binary32.emax;
  flt := SFltb
|}.

(** Real numbers with one not-a-number value, which every operation
    propagates and every undefined operation (division by zero, square
    root of a negative number) returns. *)
Inductive xreal :=
  | XNaN
  | XFin (r : R).

Module Exact.
Definition lift2 (f : R → R → R) (x y : xreal) : xreal :=
  match x, y with
  | XFin a, XFin b => XFin (f a b)
  | _, _ => XNaN
  end.

Definition div (x y : xreal) : xreal :=
  match x, y with
  | XFin a, XFin b => if Req_dec_T b 0 then XNaN else XFin (a / b)
  | _, _ => XNaN
  end.

Definition neg (x : xreal) : xreal :=
  match x with
  | XFin a => XFin (- a)
  | XNaN => XNaN
  end.

Definition sqrt (x : xreal) : xreal :=
  match x with
  | XFin a => if Rlt_dec a 0 then XNaN else XFin (R_sqrt.sqrt a)
  | XNaN => XNaN
  end.

Definition ltb (x y : xreal) : bool :=
  match x, y with
  | XFin a, XFin b => if Rlt_dec a b then true else false
  | _, _ => false
  end.
End Exact.

Definition exact_real : Scalar := {|
  num := xreal;
  pyfloat := xreal;
  to_num := λ x, x;
  nan := XNaN;
  lit := λ n, XFin (IZR n);
  eps := XFin (/ 10000000000);
  fadd := Exact.lift2 Rplus;
  fsub := Exact.lift2 Rminus;
  fmul := Exact.lift2 Rmult;
  fdiv := Exact.div;
  fneg := Exact.neg;
  fsqrt := Exact.sqrt;
  flt := Exact.ltb
|}.


(** ** The specification's description of the indicators

    Second definitions, written from the words of the specification
    (sections 4.2 to 4.5), cell by cell from the input row.  [row[i]]
    is read as [default nan (row !! i)]. *)

Module Spec.
Section Spec.
Context {Sc : Scalar}.
Local Open Scope num_scope.

Definition at_ (row : list num) (i : nat) : num := default nan (row !! i).

(** *** 4.2 EMA *)

(** [alpha = 2 / (period + 1)] *)
Definition ema_alpha (period : nat) : num :=
  lit 2 / lit (Z.of_nat period + 1).

(** Seed [ema[0] = data[0]]; for [i = 1..T-1],
    [ema[i] = alpha*data[i] + (1-alpha)*ema[i-1]]. *)
Fixpoint ema_at (alpha : num) (data : list num) (i : nat) : num :=
  match i with
  | 0 => at_ data 0
  | S j => alpha * at_ data (S j) + (lit 1 - alpha) * ema_at alpha data j
  end.

Definition ema (data : ndarray num) (period : nat) : ndarray num :=
  tabulate (ncols data) (ema_at (ema_alpha period)) (rows data).

(** *** 4.3 RSI *)

(** [max(x, y)]: [x] where it is above [y], else [y]. *)
Definition fmax (x y : num) : num := if flt y x then x else y.

(** [gains = max(diff, 0)], [losses = max(-diff, 0)] of the first
    differences. *)
Definition gains (prices : list num) : list num :=
  (λ d, fmax d (lit 0)) <$> cp.diff prices.
Definition losses (prices : list num) : list num :=
  (λ d, fmax (- d) (lit 0)) <$> cp.diff prices.

(** The average at column index [period + k]: the mean of the first
    [period] values for [k = 0], then
    [avg = alpha*x[i-1] + (1-alpha)*avg] at [i = period + k]. *)
Fixpoint wilder (alpha : num) (period : nat) (xs : list num) (k : nat) : num :=
  match k with
  | 0 => cp.mean (take period xs)
  | S k' =>
      alpha * at_ xs (period + k')
      + (lit 1 - alpha) * wilder alpha period xs k'
  end.

(** [alpha = 1 / period] *)
Definition rsi_alpha (period : nat) : num := lit 1 / lit (Z.of_nat period).

Definition rsi_at (period : nat) (prices : list num) (i : nat) : num :=
  if decide (i < period) then nan
  else
    let avg_gain := wilder (rsi_alpha period) period (gains prices) (i - period) in
    let avg_loss := wilder (rsi_alpha period) period (losses prices) (i - period) in
    let rs := avg_gain / (avg_loss + eps) in
    lit 100 - lit 100 / (lit 1 + rs).

Definition rsi (prices : ndarray num) (period : nat) : ndarray num :=
  tabulate (ncols prices) (rsi_at period) (rows prices).

(** *** 4.4 Bollinger *)

(** The trailing window [prices[i-period+1 : i+1]]. *)
Definition window (period : nat) (prices : list num) (i : nat) : list num :=
  take period (drop (i + 1 - period) prices).

Definition middle_at (period : nat) (prices : list num) (i : nat) : num :=
  if decide (i < period - 1) then nan
  else cp.mean (window period prices i).

Definition upper_at (period : nat) (std_multiplier : num)
    (prices : list num) (i : nat) : num :=
  if decide (i < period - 1) then nan
  else cp.mean (window period prices i)
       + std_multiplier * cp.std (window period prices i).

Definition lower_at (period : nat) (std_multiplier : num)
    (prices : list num) (i : nat) : num :=
  if decide (i < period - 1) then nan
  else cp.mean (window period prices i)
       - std_multiplier * cp.std (window period prices i).

Definition bollinger (prices : ndarray num) (period : nat)
    (std_multiplier : num) : ndarray num * ndarray num * ndarray num :=
  (tabulate (ncols prices) (upper_at period std_multiplier) (rows prices),
   tabulate (ncols prices) (middle_at period) (rows prices),
   tabulate (ncols prices) (lower_at period std_multiplier) (rows prices)).

(** *** 4.5 MACD *)

Definition macd (prices : ndarray num) (fast slow signal : nat)
    : ndarray num * ndarray num * ndarray num :=
  let fast_ema := ema prices fast in
  let slow_ema := ema prices slow in
  let macd_line := array_sub fast_ema slow_ema in
  let signal_line := ema macd_line signal in
  let histogram := array_sub macd_line signal_line in
  (macd_line, signal_line, histogram).
End Spec.
End Spec.

(** ** The same kernels over the real numbers

    What the reference definitions compute on a row of real numbers,
    written with the operations of [R]. *)

Module Real.
Local Open Scope R_scope.

Definition sum (l : list R) : R := foldr Rplus 0 l.

(** The arithmetic mean. *)
Definition mean (l : list R) : R := sum l / INR (length l).

(** The population standard deviation. *)
Definition std (l : list R) : R :=
  sqrt (mean ((λ x, (x - mean l) * (x - mean l)) <$> l)).

(** First differences, and their positive and negative parts. *)
Definition diff (row : list R) : list R :=
  zip_with (λ x y, y - x) row (drop 1 row).
Definition gains (row : list R) : list R := (λ d, Rmax d 0) <$> diff row.
Definition losses (row : list R) : list R := (λ d, Rmax (- d) 0) <$> diff row.

(** Wilder's average at column index [period + k]. *)
Fixpoint wilder (period : nat) (xs : list R) (k : nat) : R :=
  match k with
  | 0%nat => mean (take period xs)
  | S k' =>
      1 / INR period * nth (period + k') xs 0
      + (1 - 1 / INR period) * wilder period xs k'
  end.

Definition rsi_at (period : nat) (row : list R) (i : nat) : R :=
  let avg_gain := wilder period (gains row) (i - period) in
  let avg_loss := wilder period (losses row) (i - period) in
  100 - 100 / (1 + avg_gain / (avg_loss + / 10000000000)).

(** The array of reals as an array of scalars. *)
Definition array (a : ndarray R) : ndarray (@num exact_real) :=
  mk_ndarray (ncols a) ((λ row : list R, XFin <$> row) <$> rows a).
End Real.

(** ** Loop states

    The value of the loop variables of each kernel after a number of
    iterations; the loop invariants are stated with them. *)

Section LoopStates.
Context {Sc : Scalar}.

(** The row of a price row in the arrays [gains] and [losses] of
    [rsi_kernel]. *)
Definition row_gains (prices : list num) : list num :=
  gain <$> cp.diff prices.
Definition row_losses (prices : list num) : list num :=
  loss <$> cp.diff prices.

(** The cell [rsi_values[r, i]] as [rsi_kernel] leaves it on the price
    row [r]: the sentinel below column [period], then the value of the
    running averages [avg_gains] and [avg_losses] at that column. *)
Definition rsi_cell (period : nat) (prices : list num) (i : nat) : num :=
  if decide (i < period) then nan
  else
    let avg_gain :=
      Spec.wilder (Spec.rsi_alpha period) period (row_gains prices)
        (i - period) in
    let avg_loss :=
      Spec.wilder (Spec.rsi_alpha period) period (row_losses prices)
        (i - period) in
    let rs := fdiv avg_gain (fadd avg_loss eps) in
    fsub (lit 100) (fdiv (lit 100) (fadd (lit 1) rs)).

Definition rsi_cells (prices : ndarray num) (period : nat) : ndarray num :=
  tabulate (ncols prices) (rsi_cell period) (rows prices).

(** The output after [k] iterations of the smoothing loop. *)
Definition rsi_partial (p k : nat) (row : list num) (i : nat) : num :=
  if decide (p ≤ i ≤ p + k) then rsi_cell p row i else nan.

Definition rsi_loop_state (a : ndarray num) (p k : nat)
    : list num * list num * ndarray num :=
  ((λ row, Spec.wilder (Spec.rsi_alpha p) p (row_gains row) k) <$> rows a,
   (λ row, Spec.wilder (Spec.rsi_alpha p) p (row_losses row) k) <$> rows a,
   tabulate (ncols a) (rsi_partial p k) (rows a)).

(** The output after the seed and [k] iterations of the loop. *)
Definition ema_partial (alpha : num) (k : nat) (row : list num) (i : nat)
    : num :=
  if decide (i ≤ k) then Spec.ema_at alpha row i else nan.

(** A band after [j] iterations of the loop. *)
Definition band_partial (p j : nat) (f : list num → nat → num)
    (row : list num) (i : nat) : num :=
  if decide (p - 1 ≤ i < p - 1 + j) then f row i else nan.

Definition bollinger_state (a : ndarray num) (p : nat) (m : num) (j : nat)
    : ndarray num * ndarray num * ndarray num :=
  (tabulate (ncols a) (band_partial p j (Spec.upper_at p m)) (rows a),
   tabulate (ncols a) (band_partial p j (Spec.middle_at p)) (rows a),
   tabulate (ncols a) (band_partial p j (Spec.lower_at p m)) (rows a)).

(** MACD, cell by cell from the input row. *)
Definition macd_at (fast slow : nat) (row : list num) (i : nat) : num :=
  fsub (Spec.ema_at (Spec.ema_alpha fast) row i)
       (Spec.ema_at (Spec.ema_alpha slow) row i).

Definition signal_at (T fast slow signal : nat) (row : list num) (i : nat)
    : num :=
  Spec.ema_at (Spec.ema_alpha signal) (macd_at fast slow row <$> seq 0 T) i.
End LoopStates.

(** * Lemmas *)

(** ** Lists and arrays *)

Section ListFacts.
Context {A B C : Type}.

Lemma zip_with_fmap_same (f : B → C → A) {X : Type} (g : X → B) (h : X → C)
    (l : list X) :
  zip_with f (g <$> l) (h <$> l) = (λ x, f (g x) (h x)) <$> l.
Proof. induction l as [|x l IH]; csimpl; [done | by f_equal]. Qed.

Lemma lookup_fmap_seq (f : nat → A) (n i : nat) :
  i < n → (f <$> seq 0 n) !! i = Some (f i).
Proof.
  intros Hi. rewrite list_lookup_fmap.
  by rewrite (lookup_seq_lt 0 n i Hi).
Qed.

Lemma lookup_fmap_seq_ge (f : nat → A) (n i : nat) :
  n ≤ i → (f <$> seq 0 n) !! i = None.
Proof.
  intros Hi. rewrite list_lookup_fmap.
  by rewrite (lookup_seq_ge 0 n i Hi).
Qed.

Lemma insert_fmap_seq (f : nat → A) (n i : nat) (v : A) :
  <[i:=v]> (f <$> seq 0 n)
  = (λ j, if decide (j = i) then v else f j) <$> seq 0 n.
Proof.
  apply list_eq. intros j.
  destruct (decide (j < n)) as [Hj|Hj].
  - rewrite lookup_fmap_seq by done.
    destruct (decide (j = i)) as [->|Hne].
    + rewrite list_lookup_insert_eq; [done|].
      by rewrite length_fmap, length_seq.
    + rewrite list_lookup_insert_ne by done.
      by rewrite lookup_fmap_seq.
  - rewrite lookup_fmap_seq_ge by lia.
    apply lookup_ge_None.
    rewrite length_insert, length_fmap, length_seq. lia.
Qed.

Lemma fmap_seq_ext (f g : nat → A) (n : nat) :
  (∀ i, i < n → f i = g i) → f <$> seq 0 n = g <$> seq 0 n.
Proof.
  intros H. apply list_eq. intros i.
  destruct (decide (i < n)).
  - rewrite !lookup_fmap_seq by done. f_equal. auto.
  - by rewrite !lookup_fmap_seq_ge by lia.
Qed.
End ListFacts.

Section TabulateFacts.
Context {A B : Type}.
Implicit Types (f g : list A → nat → B) (rs : list (list A)).

Lemma tabulate_ext n f g rs :
  (∀ row i, i < n → f row i = g row i) → tabulate n f rs = tabulate n g rs.
Proof.
  intros H. unfold tabulate. f_equal.
  apply list_fmap_ext. intros _ row _. apply fmap_seq_ext. auto.
Qed.

Lemma full_tabulate (x : B) n rs :
  cp.full (length rs) n x = tabulate n (λ _ _, x) rs.
Proof.
  unfold cp.full, tabulate. f_equal.
  induction rs as [|row rs IH]; csimpl; [done|]. f_equal; [|done].
  clear. generalize 0. induction n as [|n IH]; intros k; csimpl; [done|].
  f_equal. apply IH.
Qed.

Lemma setitem_col_tabulate n f rs i (v : list A → B) :
  i < n →
  cp.setitem_col (tabulate n f rs) i (v <$> rs)
  = Ok (tabulate n (λ row j, if decide (j = i) then v row else f row j) rs).
Proof.
  intros Hi. unfold cp.setitem_col, tabulate. simpl.
  rewrite decide_True by done. do 2 f_equal.
  rewrite zip_with_fmap_same.
  apply list_fmap_ext. intros _ row _. apply insert_fmap_seq.
Qed.

Lemma setitem_col_tabulate_ge n f rs i (v : list B) :
  n ≤ i → cp.setitem_col (tabulate n f rs) i v = Raise IndexError.
Proof.
  intros Hi. unfold cp.setitem_col, tabulate. simpl.
  by rewrite decide_False by lia.
Qed.

Lemma cell_tabulate n f rs r i row :
  rs !! r = Some row → i < n → cell (tabulate n f rs) r i = Some (f row i).
Proof.
  intros Hr Hi. unfold cell, tabulate. simpl.
  rewrite list_lookup_fmap, Hr. simpl. by apply lookup_fmap_seq.
Qed.
End TabulateFacts.

Section ColumnFacts.
Context {Sc : Scalar}.

Lemma column_fmap {X : Type} (f : X → list num) (xs : list X) (i : nat) :
  cp.column (f <$> xs) i = (λ x, Spec.at_ (f x) i) <$> xs.
Proof. unfold cp.column. by rewrite <- list_fmap_compose. Qed.

Lemma getitem_col_lt (a : ndarray num) (i : nat) :
  i < ncols a →
  cp.getitem_col a i = Ok ((λ row, Spec.at_ row i) <$> rows a).
Proof. intros Hi. unfold cp.getitem_col. by rewrite decide_True. Qed.

Lemma column_tabulate {A : Type} n (f : list A → nat → num) rs i :
  i < n →
  cp.column (rows (tabulate n f rs)) i = (λ row, f row i) <$> rs.
Proof.
  intros Hi. unfold tabulate. simpl. rewrite column_fmap.
  apply list_fmap_ext. intros _ row _. unfold Spec.at_.
  by rewrite lookup_fmap_seq.
Qed.

Lemma getitem_col_tabulate {A : Type} n (f : list A → nat → num) rs i :
  i < n →
  cp.getitem_col (tabulate n f rs) i = Ok ((λ row, f row i) <$> rs).
Proof.
  intros Hi. unfold cp.getitem_col.
  rewrite decide_True by done. by rewrite column_tabulate.
Qed.
End ColumnFacts.


(** ** The RSI kernel, column by column *)

Section RsiKernel.
Context {Sc : Scalar}.

Lemma rsi_at_ge p row i :
  p ≤ i →
  rsi_cell p row i
  = rsi_of (Spec.wilder (Spec.rsi_alpha p) p (row_gains row) (i - p))
           (Spec.wilder (Spec.rsi_alpha p) p (row_losses row) (i - p)).
Proof. intros Hi. unfold rsi_cell. by rewrite decide_False by lia. Qed.

Lemma rsi_at_lt p row i : i < p → rsi_cell p row i = nan.
Proof. intros Hi. unfold rsi_cell. by rewrite decide_True. Qed.

Lemma rsi_step_state a p k :
  p + k + 1 < ncols a →
  rsi_step (Spec.rsi_alpha p) (row_gains <$> rows a) (row_losses <$> rows a)
    (rsi_loop_state a p k) (p + 1 + k)
  = Ok (rsi_loop_state a p (k + 1)).
Proof.
  intros Hk. unfold rsi_step, rsi_loop_state.
  replace (p + 1 + k - 1) with (p + k) by lia.
  rewrite !column_fmap, !zip_with_fmap_same.
  rewrite setitem_col_tabulate by lia. simpl.
  replace (k + 1) with (S k) by lia. simpl.
  do 2 f_equal. apply tabulate_ext. intros row i Hi.
  unfold rsi_partial.
  destruct (decide (i = p + 1 + k)) as [->|Hne].
  - rewrite decide_True by lia. rewrite rsi_at_ge by lia.
    replace (p + 1 + k - p) with (S k) by lia. done.
  - destruct (decide (p ≤ i ≤ p + k)).
    + by rewrite decide_True by lia.
    + by rewrite decide_False by lia.
Qed.

Lemma rsi_loop a p n : ∀ k,
  p + k + n < ncols a →
  for_each
    (rsi_step (Spec.rsi_alpha p) (row_gains <$> rows a) (row_losses <$> rows a))
    (rsi_loop_state a p k) (seq (p + 1 + k) n)
  = Ok (rsi_loop_state a p (k + n)).
Proof.
  induction n as [|n IH]; intros k Hk; cbn [for_each seq].
  - by rewrite Nat.add_0_r.
  - rewrite rsi_step_state by lia. cbn [mbind result_bind].
    replace (S (p + 1 + k)) with (p + 1 + (k + 1)) by lia.
    rewrite IH by lia. do 2 f_equal. lia.
Qed.

Lemma rsi_loop_from_seed a p :
  p < ncols a →
  for_each
    (rsi_step (Spec.rsi_alpha p) (row_gains <$> rows a) (row_losses <$> rows a))
    (rsi_loop_state a p 0) (range (p + 1) (ncols a))
  = Ok (rsi_loop_state a p (ncols a - (p + 1))).
Proof.
  intros HT. unfold range.
  pose proof (rsi_loop a p (ncols a - (p + 1)) 0) as Hloop.
  rewrite !Nat.add_0_r in Hloop. rewrite Hloop by lia. done.
Qed.

(** With at least [period + 1] columns the kernel returns the array
    the specification describes. *)
Lemma rsi_kernel_spec a p :
  1 ≤ p → p < ncols a → rsi_kernel a p = Ok (rsi_cells a p).
Proof.
  intros Hp HT. unfold rsi_kernel.
  rewrite decide_True by lia. cbv zeta.
  rewrite <- !list_fmap_compose.
  rewrite full_tabulate, zip_with_fmap_same.
  rewrite setitem_col_tabulate by done. cbn [mbind result_bind].
  rewrite decide_False by lia. cbn [mbind result_bind].
  rewrite (tabulate_ext _ _ (rsi_partial p 0)).
  - change (for_each _ _ _) with
      (for_each
         (rsi_step (Spec.rsi_alpha p) (row_gains <$> rows a)
            (row_losses <$> rows a))
         (rsi_loop_state a p 0) (range (p + 1) (ncols a))).
    rewrite rsi_loop_from_seed by done. simpl. f_equal.
    apply tabulate_ext. intros row i Hi.
    unfold rsi_partial. destruct (decide (p ≤ i ≤ _)) as [|Hn]; [done|].
    rewrite rsi_at_lt; [done|lia].
  - intros row i Hi. cbn beta. unfold rsi_partial.
    destruct (decide (i = p)) as [->|].
    + rewrite decide_True by lia. rewrite rsi_at_ge by lia.
      by rewrite Nat.sub_diag.
    + by rewrite decide_False by lia.
Qed.

(** With fewer than [period] columns the output stays the sentinel. *)
Lemma rsi_kernel_short a p :
  ncols a < p →
  rsi_kernel a p = Ok (cp.full (length (rows a)) (ncols a) nan).
Proof. intros HT. unfold rsi_kernel. by rewrite decide_False by lia. Qed.

(** With exactly [period] columns the guard [data_length >= period]
    passes and the write to column [period] is out of bounds. *)
Lemma rsi_kernel_eq_period a p :
  ncols a = p → rsi_kernel a p = Raise IndexError.
Proof.
  intros HT. unfold rsi_kernel.
  rewrite decide_True by lia.
  rewrite full_tabulate, setitem_col_tabulate_ge; [done|lia].
Qed.

(** A zero period passes the seed write and fails at [1.0 / period]. *)
Lemma rsi_kernel_zero_period a :
  0 < ncols a → rsi_kernel a 0 = Raise ZeroDivisionError.
Proof.
  intros HT. unfold rsi_kernel.
  rewrite decide_True by lia.
  rewrite <- !list_fmap_compose.
  rewrite full_tabulate, zip_with_fmap_same.
  by rewrite setitem_col_tabulate by done.
Qed.
End RsiKernel.

(** ** Python indices at non-negative integers *)

Lemma py_index_nat (len i : nat) :
  i < len → py_index len (Z.of_nat i) = Ok i.
Proof.
  intros Hi. unfold py_index.
  rewrite decide_True by lia. by rewrite Nat2Z.id.
Qed.

Lemma py_index_nat_ge (len i : nat) :
  len ≤ i → py_index len (Z.of_nat i) = Raise IndexError.
Proof.
  intros Hi. unfold py_index.
  rewrite decide_False by lia. by rewrite decide_False by lia.
Qed.

Lemma py_slice_bound_nat (len i : nat) :
  py_slice_bound len (Z.of_nat i) = i `min` len.
Proof. unfold py_slice_bound. rewrite decide_False by lia. lia. Qed.

Lemma py_slice_nat {A : Type} (l : list A) (lo hi : nat) :
  py_slice l (Z.of_nat lo) (Z.of_nat hi) = take (hi - lo) (drop lo l).
Proof.
  unfold py_slice. rewrite !py_slice_bound_nat.
  destruct (decide (length l ≤ lo)) as [Hlo|Hlo].
  - rewrite !drop_ge by lia. by rewrite !take_nil.
  - replace (lo `min` length l) with lo by lia.
    destruct (decide (hi ≤ length l)) as [Hhi|Hhi].
    + by replace (hi `min` length l) with hi by lia.
    + rewrite !take_ge; [done| |]; rewrite length_drop; lia.
Qed.

Lemma py_range_nat (lo hi : nat) :
  py_range (Z.of_nat lo) (Z.of_nat hi) = Z.of_nat <$> seq lo (hi - lo).
Proof.
  unfold py_range.
  replace (Z.to_nat (Z.of_nat hi - Z.of_nat lo)) with (hi - lo) by lia.
  generalize (hi - lo). intros n.
  replace (seq lo n) with (Nat.add lo <$> seq 0 n)
    by (rewrite fmap_add_seq; f_equal; lia).
  rewrite <- list_fmap_compose.
  apply list_fmap_ext. intros _ k _. simpl. lia.
Qed.

Lemma for_each_fmap {St X Y : Type} (body : St → Y → result St) (f : X → Y)
    (xs : list X) : ∀ s,
  for_each body s (f <$> xs) = for_each (λ s x, body s (f x)) s xs.
Proof.
  induction xs as [|x xs IH]; intros s; csimpl; [done|].
  destruct (body s (f x)); simpl; [apply IH | done].
Qed.

(** ** The EMA kernel, column by column *)

Section EmaKernel.
Context {Sc : Scalar}.

Lemma ema_step_state data alpha k :
  k + 1 < ncols data →
  ema_step alpha data
    (tabulate (ncols data) (ema_partial alpha k) (rows data)) (k + 1)
  = Ok (tabulate (ncols data) (ema_partial alpha (k + 1)) (rows data)).
Proof.
  intros Hk. unfold ema_step.
  rewrite (getitem_col_lt data) by lia. cbn [mbind result_bind].
  replace (k + 1 - 1) with k by lia.
  rewrite getitem_col_tabulate by lia. cbn [mbind result_bind].
  rewrite zip_with_fmap_same.
  rewrite setitem_col_tabulate by lia. f_equal.
  apply tabulate_ext. intros row i Hi. unfold ema_partial.
  destruct (decide (i = k + 1)) as [->|Hne].
  - rewrite decide_True by lia. rewrite decide_True by lia.
    by replace (k + 1) with (S k) by lia.
  - destruct (decide (i ≤ k)).
    + by rewrite decide_True by lia.
    + by rewrite decide_False by lia.
Qed.

Lemma ema_loop data alpha n : ∀ k,
  k + n < ncols data →
  for_each (ema_step alpha data)
    (tabulate (ncols data) (ema_partial alpha k) (rows data)) (seq (k + 1) n)
  = Ok (tabulate (ncols data) (ema_partial alpha (k + n)) (rows data)).
Proof.
  induction n as [|n IH]; intros k Hk; cbn [for_each seq].
  - by rewrite Nat.add_0_r.
  - rewrite ema_step_state by lia. cbn [mbind result_bind].
    replace (S (k + 1)) with (k + 1 + 1) by lia.
    rewrite IH by lia. by replace (k + 1 + n) with (k + S n) by lia.
Qed.

(** With at least one column [_ema_gpu] returns the array the
    specification describes. *)
Lemma ema_gpu_spec data period :
  0 < ncols data → _ema_gpu data period = Ok (Spec.ema data period).
Proof.
  intros HT. unfold _ema_gpu. cbv zeta.
  rewrite getitem_col_lt by done. cbn [mbind result_bind].
  unfold cp.full_like. rewrite full_tabulate.
  rewrite setitem_col_tabulate by done. cbn [mbind result_bind].
  rewrite (tabulate_ext _ _ (ema_partial (Spec.ema_alpha period) 0)).
  - unfold range.
    change (for_each _ _ _) with
      (for_each (ema_step (Spec.ema_alpha period) data)
         (tabulate (ncols data) (ema_partial (Spec.ema_alpha period) 0)
            (rows data))
         (seq (0 + 1) (ncols data - 1))).
    rewrite ema_loop by lia. f_equal.
    apply tabulate_ext. intros row i Hi. unfold ema_partial.
    by rewrite decide_True by lia.
  - intros row i Hi. cbn beta. unfold ema_partial.
    destruct (decide (i = 0)) as [->|].
    + by rewrite decide_True by lia.
    + by rewrite decide_False by lia.
Qed.

(** Without a column the seed [ema[:, 0] = data[:, 0]] is out of
    bounds. *)
Lemma ema_gpu_no_column data period :
  ncols data = 0 → _ema_gpu data period = Raise IndexError.
Proof.
  intros HT. unfold _ema_gpu, cp.getitem_col.
  by rewrite decide_False by lia.
Qed.
End EmaKernel.

(** ** The Bollinger kernel, column by column *)

Section BollingerKernel.
Context {Sc : Scalar}.

Lemma window_slice (p i : nat) (row : list num) :
  1 ≤ p → p - 1 ≤ i →
  py_slice row (Z.of_nat i - Z.of_nat p + 1) (Z.of_nat i + 1)
  = Spec.window p row i.
Proof.
  intros Hp Hi. unfold Spec.window.
  replace (Z.of_nat i - Z.of_nat p + 1)%Z with (Z.of_nat (i + 1 - p)) by lia.
  replace (Z.of_nat i + 1)%Z with (Z.of_nat (i + 1)) by lia.
  rewrite py_slice_nat. f_equal. lia.
Qed.

Lemma band_partial_step p j f (v : list num → num) (T : nat)
    (rs : list (list num)) :
  (∀ row, f row (p - 1 + j) = v row) →
  tabulate T
    (λ row i, if decide (i = p - 1 + j) then v row else band_partial p j f row i)
    rs
  = tabulate T (band_partial p (j + 1) f) rs.
Proof.
  intros Hv. apply tabulate_ext. intros row i Hi. unfold band_partial.
  destruct (decide (i = p - 1 + j)) as [->|Hne].
  - rewrite decide_True by lia. by rewrite Hv.
  - destruct (decide (p - 1 ≤ i < p - 1 + j)).
    + by rewrite decide_True by lia.
    + by rewrite decide_False by lia.
Qed.

Lemma bollinger_step_state a p m j :
  1 ≤ p → p - 1 + j < ncols a →
  bollinger_step (rows a) p m (bollinger_state a p m j) (Z.of_nat (p - 1 + j))
  = Ok (bollinger_state a p m (j + 1)).
Proof.
  intros Hp Hj. unfold bollinger_step, bollinger_state. cbv zeta.
  rewrite (list_fmap_ext _ (λ row, Spec.window p row (p - 1 + j)) (rows a))
    by (intros _ row _; apply window_slice; lia).
  rewrite <- !list_fmap_compose. unfold cp.setitem_col_int.
  cbn [ncols tabulate]. rewrite !py_index_nat by done.
  cbn [mbind result_bind]. rewrite !zip_with_fmap_same.
  rewrite !setitem_col_tabulate by done. cbn [mbind result_bind].
  rewrite !band_partial_step; [done|..]; intros row; cbn beta.
  - unfold Spec.lower_at. case_decide; [lia|done].
  - unfold Spec.middle_at. case_decide; [lia|done].
  - unfold Spec.upper_at. case_decide; [lia|done].
Qed.

Lemma bollinger_loop a p m n : ∀ j,
  1 ≤ p → p - 1 + j + n ≤ ncols a →
  for_each (λ bands (i : nat), bollinger_step (rows a) p m bands (Z.of_nat i))
    (bollinger_state a p m j) (seq (p - 1 + j) n)
  = Ok (bollinger_state a p m (j + n)).
Proof.
  induction n as [|n IH]; intros j Hp Hj; cbn [for_each seq].
  - by rewrite Nat.add_0_r.
  - rewrite bollinger_step_state by lia. cbn [mbind result_bind].
    replace (S (p - 1 + j)) with (p - 1 + (j + 1)) by lia.
    rewrite IH by lia. by replace (j + 1 + n) with (j + S n) by lia.
Qed.

(** For a period of at least 1 the kernel returns the three arrays
    the specification describes, whatever the shape. *)
Lemma bollinger_kernel_spec a p m :
  1 ≤ p → bollinger_kernel a p m = Ok (Spec.bollinger a p m).
Proof.
  intros Hp. unfold bollinger_kernel. cbv zeta.
  replace (Z.of_nat p - 1)%Z with (Z.of_nat (p - 1)) by lia.
  rewrite py_range_nat, for_each_fmap, full_tabulate.
  assert (Hloop :
    for_each (λ bands (i : nat), bollinger_step (rows a) p m bands (Z.of_nat i))
      (bollinger_state a p m 0) (seq (p - 1) (ncols a - (p - 1)))
    = Ok (bollinger_state a p m (0 + (ncols a - (p - 1))))).
  { destruct (decide (p - 1 ≤ ncols a)) as [Hle|Hgt].
    - pose proof (bollinger_loop a p m (ncols a - (p - 1)) 0 Hp) as H.
      rewrite Nat.add_0_r in H. apply H. lia.
    - by replace (ncols a - (p - 1)) with 0 by lia. }
  replace (tabulate (ncols a) (λ _ _, nan) (rows a),
           tabulate (ncols a) (λ _ _, nan) (rows a),
           tabulate (ncols a) (λ _ _, nan) (rows a))
    with (bollinger_state a p m 0).
  - rewrite Hloop. f_equal. unfold bollinger_state, Spec.bollinger.
    assert (Hfin : ∀ f : list num → nat → num,
              (∀ row i, i < p - 1 → f row i = nan) →
              tabulate (ncols a) (band_partial p (0 + (ncols a - (p - 1))) f)
                (rows a)
              = tabulate (ncols a) f (rows a)).
    { intros f Hf. apply tabulate_ext. intros row i Hi. unfold band_partial.
      destruct (decide (p - 1 ≤ i < _)) as [|Hn]; [done|].
      rewrite Hf; [done|lia]. }
    rewrite !Hfin; [done|..]; intros row i Hi.
    + unfold Spec.lower_at. by rewrite decide_True.
    + unfold Spec.middle_at. by rewrite decide_True.
    + unfold Spec.upper_at. by rewrite decide_True.
  - unfold bollinger_state.
    assert (Hini : ∀ f : list num → nat → num,
              tabulate (ncols a) (band_partial p 0 f) (rows a)
              = tabulate (ncols a) (λ _ _, nan) (rows a)).
    { intros f. apply tabulate_ext. intros row i Hi. unfold band_partial.
      by rewrite decide_False by lia. }
    by rewrite !Hini.
Qed.
End BollingerKernel.

(** ** The MACD kernel *)

Section MacdKernel.
Context {Sc : Scalar}.

Lemma macd_kernel_spec a fast slow signal :
  0 < ncols a →
  macd_kernel a fast slow signal = Ok (Spec.macd a fast slow signal).
Proof.
  intros HT. unfold macd_kernel.
  rewrite (ema_gpu_spec a fast) by done. cbn [mbind result_bind].
  rewrite (ema_gpu_spec a slow) by done. cbn [mbind result_bind].
  rewrite ema_gpu_spec by (simpl; done). done.
Qed.

Lemma macd_kernel_no_column a fast slow signal :
  ncols a = 0 → macd_kernel a fast slow signal = Raise IndexError.
Proof.
  intros HT. unfold macd_kernel.
  by rewrite (ema_gpu_no_column a fast) by done.
Qed.
End MacdKernel.

(** ** The public methods on a two-dimensional array *)

Section PublicMethods.
Context {Sc : Scalar}.

Lemma rsi_batch_array a p :
  rsi_batch (NdArray (Array2D a)) p = rsi_kernel a p.
Proof. done. Qed.

Lemma bollinger_bands_batch_array a p m :
  bollinger_bands_batch (NdArray (Array2D a)) p m = bollinger_kernel a p m.
Proof. done. Qed.

Lemma macd_batch_array a fast slow signal :
  macd_batch (NdArray (Array2D a)) fast slow signal
  = macd_kernel a fast slow signal.
Proof. done. Qed.

(** What [rsi_batch] does, by the number of columns. *)
Lemma rsi_batch_cases a p :
  1 ≤ p →
  rsi_batch (NdArray (Array2D a)) p
  = if decide (ncols a = p) then Raise IndexError
    else Ok (rsi_cells a p).
Proof.
  intros Hp. rewrite rsi_batch_array. case_decide as HT.
  - by apply rsi_kernel_eq_period.
  - destruct (decide (p < ncols a)) as [Hlt|Hge].
    + by apply rsi_kernel_spec.
    + rewrite rsi_kernel_short by lia. f_equal.
      rewrite full_tabulate. apply tabulate_ext. intros row i Hi.
      rewrite rsi_at_lt; [done|lia].
Qed.
End PublicMethods.

(** ** What a cell reads of its row *)

Section Prefix.
Context {Sc : Scalar}.












Lemma array_sub_tabulate {A : Type} (T : nat) (f g : list A → nat → num)
    (rs : list (list A)) :
  array_sub (tabulate T f rs) (tabulate T g rs)
  = tabulate T (λ row i, fsub (f row i) (g row i)) rs.
Proof.
  unfold array_sub, tabulate. simpl. f_equal.
  rewrite zip_with_fmap_same. apply list_fmap_ext. intros _ row _.
  rewrite zip_with_fmap_same. done.
Qed.

Lemma macd_tabulate (a : ndarray num) (fast slow signal : nat) :
  Spec.macd a fast slow signal
  = (tabulate (ncols a) (macd_at fast slow) (rows a),
     tabulate (ncols a) (signal_at (ncols a) fast slow signal) (rows a),
     tabulate (ncols a)
       (λ row i, fsub (macd_at fast slow row i)
                      (signal_at (ncols a) fast slow signal row i))
       (rows a)).
Proof.
  unfold Spec.macd. cbv zeta.
  assert (Hm :
    array_sub (Spec.ema a fast) (Spec.ema a slow)
    = tabulate (ncols a) (macd_at fast slow) (rows a)).
  { unfold Spec.ema. by rewrite array_sub_tabulate. }
  rewrite !Hm.
  assert (Hsig :
    Spec.ema (tabulate (ncols a) (macd_at fast slow) (rows a)) signal
    = tabulate (ncols a) (signal_at (ncols a) fast slow signal) (rows a)).
  { unfold Spec.ema, tabulate. simpl. f_equal.
    by rewrite <- list_fmap_compose. }
  rewrite Hsig. by rewrite array_sub_tabulate.
Qed.


End Prefix.

(** ** The kernels in exact arithmetic

    Prices are finite: a price matrix is an array of real numbers,
    read through [XFin]. *)

Section ExactFacts.
Local Existing Instance exact_real.
Local Open Scope R_scope.

Lemma zip_with_fmap_out {A B C D : Type} (f : A → B → C) (g : C → D)
    (l : list A) : ∀ k : list B,
  zip_with (λ x y, g (f x y)) l k = g <$> zip_with f l k.
Proof.
  induction l as [|x l IH]; intros [|y k]; csimpl; [done..|].
  by rewrite IH.
Qed.

Lemma exact_lit_nat (n : nat) : lit (Z.of_nat n) = XFin (INR n).
Proof. simpl. by rewrite INR_IZR_INZ. Qed.

Lemma exact_sum (l : list R) : cp.sum (XFin <$> l) = XFin (Real.sum l).
Proof.
  unfold cp.sum. change (lit 0) with (XFin 0).
  assert (H : ∀ x, foldl fadd (XFin x) (XFin <$> l) = XFin (x + Real.sum l)).
  { induction l as [|y l IH]; intros x; csimpl.
    - f_equal. unfold Real.sum. simpl. lra.
    - rewrite IH. f_equal. unfold Real.sum. simpl. lra. }
  rewrite H. f_equal. lra.
Qed.

Lemma exact_mean (l : list R) :
  l ≠ [] → cp.mean (XFin <$> l) = XFin (Real.mean l).
Proof.
  intros Hl. unfold cp.mean.
  rewrite exact_sum, length_fmap, exact_lit_nat. simpl.
  destruct (Req_dec_T (INR (length l)) 0) as [H0|_]; [|done].
  exfalso. apply (not_0_INR (length l)); [by destruct l | done].
Qed.

Lemma sum_ge_0 (l : list R) : Forall (λ x, 0 <= x) l → 0 <= Real.sum l.
Proof.
  induction 1 as [|x l Hx _ IH]; unfold Real.sum in *; simpl; lra.
Qed.

Lemma mean_ge_0 (l : list R) : Forall (λ x, 0 <= x) l → 0 <= Real.mean l.
Proof.
  intros Hl. unfold Real.mean.
  destruct l as [|x l].
  - unfold Real.sum. simpl. unfold Rdiv. rewrite Rmult_0_l. lra.
  - apply Rmult_le_pos; [by apply sum_ge_0|].
    apply Rlt_le, Rinv_0_lt_compat, lt_0_INR. simpl. lia.
Qed.

Lemma exact_std (l : list R) :
  l ≠ [] → cp.std (XFin <$> l) = XFin (Real.std l).
Proof.
  intros Hl. unfold cp.std. cbv zeta. rewrite exact_mean by done.
  rewrite <- list_fmap_compose.
  rewrite (list_fmap_ext _
             (XFin ∘ (λ x, (x - Real.mean l) * (x - Real.mean l))) l)
    by done.
  rewrite list_fmap_compose, exact_mean by (by destruct l).
  simpl. destruct (Rlt_dec _ 0) as [Hneg|_]; [|done].
  exfalso. apply (Rlt_not_le _ _ Hneg), mean_ge_0.
  apply Forall_fmap, Forall_forall. intros x _.
  apply (Rle_0_sqr (x - Real.mean l)).
Qed.

Lemma exact_diff (row : list R) :
  cp.diff (XFin <$> row) = XFin <$> Real.diff row.
Proof.
  unfold cp.diff, Real.diff.
  rewrite <- fmap_drop, zip_with_fmap_l, zip_with_fmap_r.
  by rewrite <- zip_with_fmap_out.
Qed.

Lemma exact_gain (d : R) : gain (XFin d) = XFin (Rmax d 0).
Proof.
  unfold gain, Rmax. simpl.
  destruct (Rlt_dec 0 d), (Rle_dec d 0); f_equal; lra.
Qed.

Lemma exact_loss (d : R) : loss (XFin d) = XFin (Rmax (- d) 0).
Proof.
  unfold loss, Rmax. simpl.
  destruct (Rlt_dec d 0), (Rle_dec (- d) 0); simpl; f_equal; lra.
Qed.

Lemma exact_gains (row : list R) :
  row_gains (XFin <$> row) = XFin <$> Real.gains row.
Proof.
  unfold row_gains, Real.gains. rewrite exact_diff.
  rewrite <- !list_fmap_compose. apply list_fmap_ext.
  intros _ d _. apply exact_gain.
Qed.

Lemma exact_losses (row : list R) :
  row_losses (XFin <$> row) = XFin <$> Real.losses row.
Proof.
  unfold row_losses, Real.losses. rewrite exact_diff.
  rewrite <- !list_fmap_compose. apply list_fmap_ext.
  intros _ d _. apply exact_loss.
Qed.

Lemma exact_at (xs : list R) (i : nat) :
  (i < length xs)%nat → Spec.at_ (XFin <$> xs) i = XFin (nth i xs 0).
Proof.
  intros Hi. unfold Spec.at_. rewrite list_lookup_fmap.
  destruct (lookup_lt_is_Some_2 xs i Hi) as [x Hx]. rewrite Hx. simpl.
  f_equal. symmetry. by apply nth_lookup_Some with (d := 0).
Qed.

Lemma exact_rsi_alpha (p : nat) :
  (1 ≤ p)%nat → Spec.rsi_alpha p = XFin (1 / INR p).
Proof.
  intros Hp. unfold Spec.rsi_alpha. rewrite exact_lit_nat. simpl.
  destruct (Req_dec_T (INR p) 0) as [H0|_]; [|done].
  exfalso. apply (not_0_INR p); [lia | done].
Qed.

Lemma exact_wilder (p : nat) (xs : list R) (k : nat) :
  (1 ≤ p)%nat → (p + k ≤ length xs)%nat →
  Spec.wilder (Spec.rsi_alpha p) p (XFin <$> xs) k
  = XFin (Real.wilder p xs k).
Proof.
  intros Hp. induction k as [|k IH]; intros Hk;
    cbn [Spec.wilder Real.wilder].
  - rewrite <- fmap_take. apply exact_mean.
    intros Hnil. apply (f_equal length) in Hnil.
    rewrite length_take in Hnil. simpl in Hnil. lia.
  - rewrite IH by lia. rewrite exact_at by lia.
    by rewrite exact_rsi_alpha.
Qed.
End ExactFacts.

Section ExactRsi.
Local Existing Instance exact_real.
Local Open Scope R_scope.

Lemma length_diff (row : list R) :
  length (Real.diff row) = (length row - 1)%nat.
Proof. unfold Real.diff. rewrite length_zip_with, length_drop. lia. Qed.

Lemma length_gains (row : list R) :
  length (Real.gains row) = (length row - 1)%nat.
Proof. unfold Real.gains. by rewrite length_fmap, length_diff. Qed.

Lemma length_losses (row : list R) :
  length (Real.losses row) = (length row - 1)%nat.
Proof. unfold Real.losses. by rewrite length_fmap, length_diff. Qed.

Lemma gains_ge_0 (row : list R) : Forall (λ x, 0 <= x) (Real.gains row).
Proof.
  unfold Real.gains. apply Forall_fmap, Forall_forall.
  intros d _. apply Rmax_r.
Qed.

Lemma losses_ge_0 (row : list R) : Forall (λ x, 0 <= x) (Real.losses row).
Proof.
  unfold Real.losses. apply Forall_fmap, Forall_forall.
  intros d _. apply Rmax_r.
Qed.

Lemma div_le_mult (a b c : R) : 0 < b → a <= c * b → a / b <= c.
Proof.
  intros Hb H. apply (Rmult_le_reg_r b); [done|].
  unfold Rdiv. rewrite Rmult_assoc, Rinv_l by lra. lra.
Qed.

Lemma inv_period_bounds (p : nat) :
  (1 ≤ p)%nat → 0 < 1 / INR p <= 1.
Proof.
  intros Hp. assert (H1 : 1 <= INR p) by (apply (le_INR 1); lia).
  split.
  - apply Rdiv_lt_0_compat; lra.
  - apply div_le_mult; lra.
Qed.

Lemma wilder_ge_0 (p : nat) (xs : list R) (k : nat) :
  (1 ≤ p)%nat → Forall (λ x, 0 <= x) xs → 0 <= Real.wilder p xs k.
Proof.
  intros Hp Hxs. induction k as [|k IH]; cbn [Real.wilder].
  - apply mean_ge_0. by apply Forall_take.
  - pose proof (inv_period_bounds p Hp) as [Ha1 Ha2].
    assert (Hn : 0 <= nth (p + k) xs 0).
    { destruct (nth_in_or_default (p + k) xs 0) as [Hin| ->]; [|lra].
      rewrite Forall_forall in Hxs. apply Hxs. by apply list_elem_of_In. }
    apply Rplus_le_le_0_compat; apply Rmult_le_pos; lra.
Qed.

Lemma wilder_zero (p : nat) (xs : list R) (k : nat) :
  Forall (λ x, x = 0) xs → Real.wilder p xs k = 0.
Proof.
  intros Hxs. induction k as [|k IH]; cbn [Real.wilder].
  - unfold Real.mean.
    assert (Hs : Real.sum (take p xs) = 0).
    { pose proof (Forall_take _ p _ Hxs) as Ht.
      induction Ht as [|x l Hx _ IHl]; unfold Real.sum in *; simpl; lra. }
    rewrite Hs. unfold Rdiv. apply Rmult_0_l.
  - rewrite IH.
    assert (Hn : nth (p + k) xs 0 = 0).
    { destruct (nth_in_or_default (p + k) xs 0) as [Hin|Hd]; [|done].
      rewrite Forall_forall in Hxs. apply Hxs. by apply list_elem_of_In. }
    rewrite Hn. lra.
Qed.

(** The value of [rsi_of] on non-negative averages, and its range. *)
Lemma exact_rsi_of (g l : R) :
  0 <= g → 0 <= l →
  rsi_of (XFin g) (XFin l)
  = XFin (100 - 100 / (1 + g / (l + / 10000000000)))
  ∧ 0 <= 100 - 100 / (1 + g / (l + / 10000000000)) <= 100.
Proof.
  intros Hg Hl.
  assert (Hd : 0 < l + / 10000000000) by lra.
  assert (Hq : 0 <= g / (l + / 10000000000)).
  { apply Rmult_le_pos; [done|]. by apply Rlt_le, Rinv_0_lt_compat. }
  split.
  - unfold rsi_of. simpl.
    destruct (Req_dec_T (l + / 10000000000) 0) as [H0|_]; [lra|].
    destruct (Req_dec_T (1 + g / (l + / 10000000000)) 0) as [H0|_]; [lra|].
    done.
  - set (q := g / (l + / 10000000000)) in *.
    assert (H1 : 0 < 100 / (1 + q)) by (apply Rdiv_lt_0_compat; lra).
    assert (H2 : 100 / (1 + q) <= 100) by (apply div_le_mult; lra).
    lra.
Qed.

(** From column [period] on, the reference value on a row of reals is
    a real number between 0 and 100. *)
Lemma exact_rsi_at (p : nat) (row : list R) (i : nat) :
  (1 ≤ p)%nat → (p ≤ i < length row)%nat →
  rsi_cell p (XFin <$> row) i = XFin (Real.rsi_at p row i)
  ∧ 0 <= Real.rsi_at p row i <= 100.
Proof.
  intros Hp Hi. rewrite rsi_at_ge by lia.
  rewrite exact_gains, exact_losses.
  rewrite !exact_wilder
    by (rewrite ?length_gains, ?length_losses; lia).
  apply exact_rsi_of; apply wilder_ge_0;
    auto using gains_ge_0, losses_ge_0.
Qed.

Lemma diff_constant (c : R) (row : list R) :
  Forall (λ x, x = c) row → Forall (λ d, d = 0) (Real.diff row).
Proof.
  intros Hrow. unfold Real.diff.
  assert (H : ∀ l k : list R,
            Forall (λ x, x = c) l → Forall (λ x, x = c) k →
            Forall (λ d, d = 0) (zip_with (λ x y, y - x) l k)).
  { induction l as [|x l IH]; intros [|y k] Hl Hk; simpl; try done.
    inversion Hl; inversion Hk; subst.
    constructor; [lra | by apply IH]. }
  apply H; [done | by apply Forall_drop].
Qed.

(** On a constant row the reference value is exactly 0. *)
Lemma exact_rsi_at_constant (p : nat) (row : list R) (c : R) (i : nat) :
  Forall (λ x, x = c) row → Real.rsi_at p row i = 0.
Proof.
  intros Hrow. unfold Real.rsi_at. cbv zeta.
  pose proof (diff_constant c row Hrow) as Hd.
  rewrite !wilder_zero.
  - unfold Rdiv. rewrite Rmult_0_l, Rplus_0_r, Rinv_1. lra.
  - unfold Real.losses. apply Forall_fmap.
    eapply Forall_impl; [exact Hd|]. intros d ->. simpl.
    rewrite Ropp_0. apply Rmax_left. lra.
  - unfold Real.gains. apply Forall_fmap.
    eapply Forall_impl; [exact Hd|]. intros d ->. simpl.
    apply Rmax_left. lra.
Qed.
End ExactRsi.

Section ExactArrays.
Local Existing Instance exact_real.
Local Open Scope R_scope.

Lemma cell_real_array (a : ndarray R) (r i : nat) (row : list R) :
  rows a !! r = Some row →
  rows (Real.array a) !! r = Some (XFin <$> row).
Proof. intros Hr. unfold Real.array. simpl. by rewrite list_lookup_fmap, Hr. Qed.

Lemma wf_lookup {A : Type} (a : ndarray A) (r : nat) (row : list A) :
  wf a → rows a !! r = Some row → length row = ncols a.
Proof. intros Hwf Hr. by apply (Forall_lookup_1 _ _ _ _ Hwf Hr). Qed.

(** RSI on a real matrix whose column count is not the period: the
    output exists, holds the sentinel below column [period] and a
    real number of [0, 100] from column [period] on. *)
Lemma exact_rsi_sentinel_and_range (a : ndarray R) (p : nat) :
  wf a → (1 ≤ p)%nat → ncols a ≠ p →
  ∃ out, rsi_batch (NdArray (Array2D (Real.array a))) p = Ok out
    ∧ ∀ r i, (r < length (rows a))%nat → (i < ncols a)%nat →
        ((i < p)%nat → cell out r i = Some XNaN)
        ∧ ((p ≤ i)%nat →
           ∃ v, cell out r i = Some (XFin v) ∧ 0 <= v <= 100).
Proof.
  intros Hwf Hp HT. exists (rsi_cells (Real.array a) p). split.
  - rewrite rsi_batch_cases by done. by rewrite decide_False.
  - intros r i Hr Hi.
    destruct (lookup_lt_is_Some_2 (rows a) r Hr) as [row Hrow].
    pose proof (wf_lookup a r row Hwf Hrow) as Hlen.
    unfold rsi_cells.
    rewrite (cell_tabulate _ _ _ _ _ (XFin <$> row))
      by (done || by apply cell_real_array).
    split; intros Hip.
    + by rewrite rsi_at_lt.
    + destruct (exact_rsi_at p row i Hp) as [Heq Hrange]; [lia|].
      exists (Real.rsi_at p row i). by rewrite Heq.
Qed.
End ExactArrays.

(** ** EMA with period 1 in exact arithmetic *)

Section ExactEma.
Local Existing Instance exact_real.
Local Open Scope R_scope.

(** [alpha = 2 / (1 + 1)] is 1. *)
Lemma exact_ema_alpha_1 : Spec.ema_alpha 1 = XFin 1.
Proof.
  unfold Spec.ema_alpha. change (Z.of_nat 1 + 1)%Z with 2%Z. simpl.
  destruct (Req_dec_T 2 0) as [H0|_]; [lra|]. f_equal. lra.
Qed.

Lemma exact_ema_at_1 (row : list R) (i : nat) :
  (i < length row)%nat →
  Spec.ema_at (XFin 1) (XFin <$> row) i = XFin (nth i row 0).
Proof.
  induction i as [|i IH]; intros Hi; cbn [Spec.ema_at].
  - by apply exact_at.
  - rewrite IH by lia. rewrite exact_at by lia. simpl. f_equal. lra.
Qed.

Lemma exact_ema_period_1 (a : ndarray R) :
  wf a → Spec.ema (Real.array a) 1 = Real.array a.
Proof.
  intros Hwf. unfold Spec.ema. rewrite exact_ema_alpha_1.
  unfold tabulate, Real.array. cbn [ncols rows]. f_equal.
  rewrite <- list_fmap_compose. apply Forall_fmap_ext.
  eapply Forall_impl; [exact Hwf|]. intros row Hlen.
  cbn beta in Hlen. cbn [compose]. apply list_eq. intros i.
  destruct (decide (i < ncols a)%nat) as [Hi|Hi].
  - rewrite lookup_fmap_seq by done.
    rewrite exact_ema_at_1 by lia. rewrite list_lookup_fmap.
    destruct (lookup_lt_is_Some_2 row i) as [x Hx]; [lia|].
    rewrite Hx. simpl. do 2 f_equal. by apply nth_lookup_Some.
  - rewrite lookup_fmap_seq_ge by lia. symmetry.
    apply lookup_ge_None. rewrite length_fmap. lia.
Qed.
End ExactEma.

(** ** Bollinger bands in exact arithmetic *)

Section ExactBollinger.
Local Existing Instance exact_real.
Local Open Scope R_scope.

Lemma exact_window (w i : nat) (row : list R) :
  Spec.window w (XFin <$> row) i
  = XFin <$> take w (drop (i + 1 - w) row).
Proof. unfold Spec.window. by rewrite fmap_take, fmap_drop. Qed.

Lemma window_nonempty (w i : nat) (row : list R) :
  (1 ≤ w)%nat → (w - 1 ≤ i < length row)%nat →
  take w (drop (i + 1 - w) row) ≠ [].
Proof.
  intros Hw Hi Hnil. apply (f_equal length) in Hnil.
  rewrite length_take, length_drop in Hnil. simpl in Hnil. lia.
Qed.

Lemma exact_bands (w i : nat) (k : R) (row : list R) :
  (1 ≤ w)%nat → (w - 1 ≤ i < length row)%nat →
  let window := take w (drop (i + 1 - w) row) in
  Spec.middle_at w (XFin <$> row) i = XFin (Real.mean window)
  ∧ Spec.upper_at w (XFin k) (XFin <$> row) i
    = XFin (Real.mean window + k * Real.std window)
  ∧ Spec.lower_at w (XFin k) (XFin <$> row) i
    = XFin (Real.mean window - k * Real.std window).
Proof.
  intros Hw Hi window.
  pose proof (window_nonempty w i row Hw Hi) as Hne.
  unfold Spec.middle_at, Spec.upper_at, Spec.lower_at.
  rewrite !decide_False by lia.
  rewrite exact_window, exact_mean, exact_std by done.
  done.
Qed.
End ExactBollinger.

(** ** Single precision: rounding never leaves the finite range here

    Bounds on what [binary_round_aux] returns, from the digit counts
    of its argument; enough to see that [lit n], [1 / lit n] and
    [1 - 1 / lit n] are finite (or the infinity [lit n] of a huge [n])
    and never not-a-number. *)

Section Binary32Rounding.
Local Open Scope Z_scope.

Lemma fexp32 (e : Z) : fexp Binary32.prec Binary32.emax e = Z.max (e - 24) (-149).
Proof. reflexivity. Qed.

(** *** Digit counts *)
Lemma Zdigits2_nonneg (m : Z) : 0 <= Zdigits2 m.
Proof. destruct m; simpl; lia. Qed.

Lemma digits2_pos_size (p : positive) : digits2_pos p = Pos.size p.
Proof. induction p; simpl; congruence. Qed.

Lemma Zdigits2_log2 (p : positive) : Zdigits2 (Zpos p) = Z.log2 (Zpos p) + 1.
Proof.
  simpl. rewrite digits2_pos_size.
  destruct p; simpl; lia.
Qed.

Lemma Zdigits2_mono (a b : Z) : 0 <= a <= b → Zdigits2 a <= Zdigits2 b.
Proof.
  intros [Ha Hab]. destruct a as [|a|a]; [apply Zdigits2_nonneg| |lia].
  destruct b as [|b|b]; [lia| |lia].
  rewrite !Zdigits2_log2. apply Z.add_le_mono_r. apply Z.log2_le_mono. lia.
Qed.

Lemma Zdigits2_succ (m : Z) : 0 <= m → Zdigits2 (m + 1) <= Zdigits2 m + 1.
Proof.
  intros Hm. destruct m as [|p|p]; [simpl; lia| |lia].
  rewrite Z.add_1_r, <- Pos2Z.inj_succ. simpl.
  induction p; simpl in *; lia.
Qed.

Lemma shr_1_digits (r : shr_record) :
  0 <= shr_m r ->
  0 <= shr_m (shr_1 r) ∧ Zdigits2 (shr_m (shr_1 r)) = Z.max 0 (Zdigits2 (shr_m r) - 1).
Proof.
  destruct r as [m rb sb]. simpl. intros Hm.
  destruct m as [|[p|p|]|p]; simpl; try lia.
Qed.

Lemma iter_pos_nat {A : Type} (f : A → A) (n : positive) : ∀ x,
  SpecFloat.iter_pos f n x = Nat.iter (Pos.to_nat n) f x.
Proof.
  induction n as [n IH|n IH|]; intros x; cbn [SpecFloat.iter_pos].
  - rewrite !IH, Pos2Nat.inj_xI.
    replace (S (2 * Pos.to_nat n))%nat
      with (Pos.to_nat n + S (Pos.to_nat n))%nat by lia.
    by rewrite Nat.iter_add, Nat.iter_succ_r.
  - rewrite !IH, Pos2Nat.inj_xO.
    replace (2 * Pos.to_nat n)%nat with (Pos.to_nat n + Pos.to_nat n)%nat by lia.
    by rewrite Nat.iter_add.
  - done.
Qed.

Lemma shr_iter_digits (k : nat) : ∀ r,
  0 <= shr_m r ->
  0 <= shr_m (Nat.iter k shr_1 r)
  ∧ Zdigits2 (shr_m (Nat.iter k shr_1 r)) = Z.max 0 (Zdigits2 (shr_m r) - Z.of_nat k).
Proof.
  induction k as [|k IH]; intros r Hr.
  - simpl. pose proof (Zdigits2_nonneg (shr_m r)). lia.
  - rewrite Nat.iter_succ. destruct (IH r Hr) as [H0 Hd].
    destruct (shr_1_digits _ H0) as [H0' Hd'].
    split; [done|]. rewrite Hd', Hd. lia.
Qed.

(** *** Shifts *)
Lemma digits2_pos_iter_xO (m : positive) (d : positive) :
  Zpos (digits2_pos (Pos.iter xO m d)) = Zpos (digits2_pos m) + Zpos d.
Proof.
  induction d as [|d IH] using Pos.peano_ind.
  - simpl. lia.
  - rewrite Pos.iter_succ. cbn [digits2_pos]. lia.
Qed.

Lemma shl_align_digits (mx : positive) (ex ex' : Z) :
  let '(mz, ez) := shl_align mx ex ex' in
  Zpos (digits2_pos mz) + ez = Zpos (digits2_pos mx) + ex
  ∧ ez = Z.min ex ex'.
Proof.
  unfold shl_align. destruct (ex' - ex) as [|d|d] eqn:Hd.
  - split; lia.
  - split; lia.
  - rewrite digits2_pos_iter_xO. split; lia.
Qed.


Lemma shr_digits (r : shr_record) (e n : Z) :
  0 <= shr_m r ->
  let '(r', e') := shr r e n in
  0 <= shr_m r'
  ∧ e' = e + Z.max 0 n
  ∧ Zdigits2 (shr_m r') = Z.max 0 (Zdigits2 (shr_m r) - Z.max 0 n).
Proof.
  intros Hr. unfold shr. destruct n as [|p|p].
  - pose proof (Zdigits2_nonneg (shr_m r)). split; [|split]; lia.
  - rewrite iter_pos_nat.
    destruct (shr_iter_digits (Pos.to_nat p) r Hr) as [H0 Hd].
    split; [done|]. split; [lia|]. rewrite Hd. lia.
  - pose proof (Zdigits2_nonneg (shr_m r)). split; [|split]; lia.
Qed.

Lemma shr_m_of_loc (m : Z) (l : location) : shr_m (shr_record_of_loc m l) = m.
Proof. by destruct l as [|[]]. Qed.

Lemma shr_fexp_digits (m e : Z) (l : location) :
  0 <= m ->
  let '(r', e') := shr_fexp Binary32.prec Binary32.emax m e l in
  0 <= shr_m r'
  ∧ e' = Z.max e (fexp Binary32.prec Binary32.emax (Zdigits2 m + e))
  ∧ Zdigits2 (shr_m r') = Z.max 0 (Zdigits2 m - (e' - e)).
Proof.
  intros Hm. unfold shr_fexp.
  pose proof (shr_digits (shr_record_of_loc m l) e
                (fexp Binary32.prec Binary32.emax (Zdigits2 m + e) - e)) as H.
  rewrite shr_m_of_loc in H. specialize (H Hm).
  destruct (shr _ _ _) as [r' e']. destruct H as (H0 & He & Hd).
  split; [done|]. split; [lia|]. rewrite Hd. f_equal. lia.
Qed.

Lemma round_nearest_even_bounds (m : Z) (l : location) :
  m <= round_nearest_even m l <= m + 1.
Proof. unfold round_nearest_even. destruct l as [|[]]; try lia. destruct (Z.even m); lia. Qed.

Lemma binary_round_aux_bounds (sx : bool) (mx ex : Z) (lx : location) :
  0 <= mx ->
  match binary_round_aux Binary32.prec Binary32.emax sx mx ex lx with
  | S754_nan => False
  | S754_zero s => s = sx ∧ (mx = 0 ∨ Zdigits2 mx + ex <= -149)
  | S754_infinity s => s = sx ∧ (104 < ex ∨ 127 < Zdigits2 mx + ex)
  | S754_finite s m e =>
      s = sx ∧ ex <= e <= 104
      ∧ Zpos (digits2_pos m) + e <= Z.max (e + 1) (Zdigits2 mx + ex + 1)
  end.
Proof.
  intros Hmx. unfold binary_round_aux.
  pose proof (shr_fexp_digits mx ex lx Hmx) as H1.
  destruct (shr_fexp Binary32.prec Binary32.emax mx ex lx) as [r1 e1].
  destruct H1 as (Hm1 & He1 & Hd1).
  pose proof (round_nearest_even_bounds (shr_m r1) (loc_of_shr_record r1)) as Hr.
  set (m2 := round_nearest_even (shr_m r1) (loc_of_shr_record r1)) in *.
  assert (Hm2 : 0 <= m2) by lia.
  pose proof (Zdigits2_mono (shr_m r1) m2 ltac:(lia)) as Hd2a.
  pose proof (Zdigits2_mono m2 (shr_m r1 + 1) ltac:(lia)) as Hd2b.
  pose proof (Zdigits2_succ (shr_m r1) Hm1) as Hd2c.
  pose proof (shr_fexp_digits m2 e1 loc_Exact Hm2) as H2.
  destruct (shr_fexp Binary32.prec Binary32.emax m2 e1 loc_Exact) as [r2 e2].
  destruct H2 as (Hm3 & He2 & Hd3).
  rewrite fexp32 in He1, He2.
  assert (Hmx0 : mx = 0 ∨ 0 < Zdigits2 mx).
  { destruct mx; simpl; lia. }
  destruct (shr_m r2) as [|m|m] eqn:Hm.
  - split; [done|]. simpl in Hd3.
    destruct Hmx0 as [->|Hpos]; [by left|right].
    destruct (shr_m r1) eqn:Hr1; simpl in *; lia.
  - simpl in Hd3. destruct (e2 <=? Binary32.emax - Binary32.prec) eqn:Hle.
    + apply Z.leb_le in Hle. unfold Binary32.emax, Binary32.prec in Hle.
      split; [done|]. split; [lia|]. lia.
    + apply Z.leb_gt in Hle. unfold Binary32.emax, Binary32.prec in Hle.
      split; [done|]. lia.
  - lia.
Qed.

Lemma binary_round_bounds (sx : bool) (mx : positive) (ex : Z) :
  match binary_round Binary32.prec Binary32.emax sx mx ex with
  | S754_nan => False
  | S754_zero s => s = sx ∧ Zpos (digits2_pos mx) + ex <= -149
  | S754_infinity s =>
      s = sx ∧ (104 < ex ∨ 127 < Zpos (digits2_pos mx) + ex)
  | S754_finite s m e =>
      s = sx
      ∧ Z.min ex (fexp Binary32.prec Binary32.emax (Zpos (digits2_pos mx) + ex)) <= e <= 104
      ∧ Zpos (digits2_pos m) + e
         <= Z.max (e + 1) (Zpos (digits2_pos mx) + ex + 1)
  end.
Proof.
  unfold binary_round.
  pose proof (shl_align_digits mx ex (fexp Binary32.prec Binary32.emax (Zpos (digits2_pos mx) + ex)))
    as Hs.
  destruct (shl_align _ _ _) as [mz ez]. destruct Hs as [Hd He].
  pose proof (binary_round_aux_bounds sx (Zpos mz) ez loc_Exact ltac:(lia)) as H.
  destruct (binary_round_aux _ _ _ _ _ _) as [s|s| |s m e];
    simpl Zdigits2 in H; [| |done|].
  - destruct H as [Hsx [H0|H0]]; [done|]. split; [done|lia].
  - destruct H as [Hsx H0]. split; [done|]. lia.
  - destruct H as (Hsx & He' & Hm). split; [done|]. split; lia.
Qed.


Lemma of_Z_pos (p : positive) :
  Binary32.of_Z (Zpos p) = S754_infinity false
  ∨ ∃ m e, Binary32.of_Z (Zpos p) = S754_finite false m e ∧ -23 <= e <= 104.
Proof.
  unfold Binary32.of_Z, binary_normalize.
  pose proof (binary_round_bounds false p 0) as H.
  rewrite fexp32 in H.
  destruct (binary_round Binary32.prec Binary32.emax false p 0) as [s|s| |s m e]; [| |done|].
  - destruct H as [_ H]. lia.
  - destruct H as [-> _]. by left.
  - destruct H as (-> & He & _). right. exists m, e. split; [done|]. lia.
Qed.

(** *** Division and subtraction *)
Lemma iter_mul2 (m s : positive) :
  Pos.iter (Z.mul 2) (Zpos m) s = Zpos (Pos.iter xO m s).
Proof.
  induction s as [|s IH] using Pos.peano_ind; [done|].
  by rewrite !Pos.iter_succ, IH.
Qed.

Lemma Zdigits2_shiftl (m s : positive) :
  0 < Z.shiftl (Zpos m) (Zpos s)
  ∧ Zdigits2 (Z.shiftl (Zpos m) (Zpos s)) = Zpos (digits2_pos m) + Zpos s.
Proof.
  change (Z.shiftl (Zpos m) (Zpos s)) with (Pos.iter (Z.mul 2) (Zpos m) s).
  rewrite iter_mul2. cbn [Zdigits2]. rewrite digits2_pos_iter_xO. lia.
Qed.

Lemma SFdiv_core_bounds (m1 m2 : positive) (e1 e2 : Z) :
  let '(q, e', _) := SFdiv_core_binary Binary32.prec Binary32.emax (Zpos m1) e1 (Zpos m2) e2 in
  0 <= q ∧ e' <= e1 - e2
  ∧ Zdigits2 q + e' <= Zpos (digits2_pos m1) + e1 - e2.
Proof.
  unfold SFdiv_core_binary. cbv zeta.
  set (e' := Z.min _ (e1 - e2)).
  assert (He' : e' <= e1 - e2) by (unfold e'; lia).
  set (m' := match e1 - e2 - e' with
             | Z0 => Zpos m1
             | Zpos _ => Z.shiftl (Zpos m1) (e1 - e2 - e')
             | Zneg _ => 0
             end).
  assert (Hm' : 0 < m' ∧ Zdigits2 m' = Zpos (digits2_pos m1) + (e1 - e2 - e')).
  { unfold m'. destruct (e1 - e2 - e') as [|s|s] eqn:Hs.
    - simpl. split; lia.
    - apply Zdigits2_shiftl.
    - lia. }
  destruct Hm' as [Hpos Hd].
  pose proof (Z_div_mod m' (Zpos m2) ltac:(lia)) as Hdiv.
  destruct (Z.div_eucl m' (Zpos m2)) as [q r]. destruct Hdiv as [Hq Hr].
  assert (Hq0 : 0 <= q) by nia.
  assert (Hqm : q <= m') by nia.
  pose proof (Zdigits2_mono q m' ltac:(lia)) as Hdq.
  split; [done|]. split; [done|]. lia.
Qed.


Lemma of_Z_1 : Binary32.of_Z 1 = Binary32.one.
Proof. reflexivity. Qed.


Lemma div_one_of_Z (p : positive) :
  Binary32.small (SFdiv Binary32.prec Binary32.emax Binary32.one (Binary32.of_Z (Zpos p))).
Proof.
  destruct (of_Z_pos p) as [->|(m & e & -> & He)]; [done|].
  unfold Binary32.one. cbn [SFdiv].
  pose proof (SFdiv_core_bounds 8388608 m (-23) e) as H.
  destruct (SFdiv_core_binary _ _ _ _ _ _) as [[q e'] l].
  destruct H as (Hq & He' & Hd). simpl digits2_pos in Hd.
  pose proof (binary_round_aux_bounds (xorb false false) q e' l Hq) as Hb.
  destruct (binary_round_aux _ _ _ _ _ _) as [s|s| |s m' e'']; [| |done|].
  - by destruct Hb as [-> _].
  - destruct Hb as [_ Hb]. lia.
  - destruct Hb as (-> & He'' & Hm). split; [done|]. lia.
Qed.


Lemma sub_one_small (x : spec_float) :
  Binary32.small x → Binary32.finite_or_zero (SFsub Binary32.prec Binary32.emax Binary32.one x).
Proof.
  destruct x as [s|s| |s m e]; try done.
  intros [-> Hm]. unfold Binary32.one. cbn [SFsub cond_Zopp].
  set (ez := Z.min (-23) e).
  pose proof (shl_align_digits 8388608 (-23) ez) as H1.
  pose proof (shl_align_digits m e ez) as H2.
  destruct (shl_align 8388608 (-23) ez) as [m1 ez1].
  destruct (shl_align m e ez) as [m2 ez2].
  destruct H1 as [Hd1 He1]. destruct H2 as [Hd2 He2].
  simpl digits2_pos in Hd1. cbn [fst].
  assert (Hez : ez <= -23) by (unfold ez; lia).
  assert (Hz : ∀ z : positive,
             Zpos z <= Z.max (Zpos m1) (Zpos m2) ->
             ∀ sz, Binary32.finite_or_zero (binary_round Binary32.prec Binary32.emax sz z ez)).
  { intros z Hz sz.
    assert (Hdz : Zpos (digits2_pos z) + ez <= 105).
    { pose proof (Zdigits2_mono (Zpos z) (Z.max (Zpos m1) (Zpos m2))
                    ltac:(lia)) as Hmono.
      destruct (Z.max_spec (Zpos m1) (Zpos m2)) as [[_ Hmax]|[_ Hmax]];
        rewrite Hmax in Hmono; simpl in Hmono; lia. }
    pose proof (binary_round_bounds sz z ez) as Hb.
    destruct (binary_round _ _ _ _ _) as [s'|s'| |s' m' e']; try done.
    destruct Hb as [_ Hb]. lia. }
  unfold binary_normalize.
  destruct (Zpos m1 - Zpos m2) as [|z|z] eqn:Hsub; [done| |].
  - apply Hz. lia.
  - apply Hz. lia.
Qed.
End Binary32Rounding.

(** ** RSI of a constant series in single precision *)

Section ConstantRows.
Context {Sc : Scalar}.

Lemma diff_constant_row (c : num) (row : list num) :
  Forall (λ x, x = c) row → Forall (λ d, d = fsub c c) (cp.diff row).
Proof.
  intros Hrow. unfold cp.diff.
  assert (H : ∀ l k : list num,
            Forall (λ x, x = c) l → Forall (λ x, x = c) k →
            Forall (λ d, d = fsub c c) (zip_with (λ x y, fsub y x) l k)).
  { induction l as [|x l IH]; intros [|y k] Hl Hk; simpl; try done.
    inversion Hl; inversion Hk; subst.
    constructor; [done | by apply IH]. }
  apply H; [done | by apply Forall_drop].
Qed.

Lemma at_Forall (P : num → Prop) (xs : list num) (i : nat) :
  Forall P xs → i < length xs → P (Spec.at_ xs i).
Proof.
  intros Hxs Hi. unfold Spec.at_.
  destruct (lookup_lt_is_Some_2 xs i Hi) as [x Hx]. rewrite Hx. simpl.
  by apply (Forall_lookup_1 _ _ _ _ Hxs Hx).
Qed.
End ConstantRows.

Section Binary32Rsi.
Local Existing Instance binary32.

Lemma b32_sub_self (c : spec_float) :
  fsub c c = S754_zero false ∨ fsub c c = S754_nan.
Proof.
  destruct c as [[]|[]| |s m e]; cbn [fsub binary32 SFsub]; auto.
  rewrite Z.sub_diag. by left.
Qed.

Lemma b32_gain_loss_sub_self (c : spec_float) :
  gain (fsub c c) = S754_zero false ∧ loss (fsub c c) = S754_zero false.
Proof. by destruct (b32_sub_self c) as [-> | ->]. Qed.

Lemma b32_gains_constant (c : spec_float) (row : list num) :
  Forall (λ x, x = c) row →
  Forall (λ x, x = S754_zero false) (row_gains row)
  ∧ Forall (λ x, x = S754_zero false) (row_losses row).
Proof.
  intros Hrow. pose proof (diff_constant_row c row Hrow) as Hd.
  destruct (b32_gain_loss_sub_self c) as [Hg Hl].
  unfold row_gains, row_losses.
  split; apply Forall_fmap; (eapply Forall_impl; [exact Hd|]);
    intros d ->; done.
Qed.

Lemma b32_sum_zeros (xs : list num) :
  Forall (λ x, x = S754_zero false) xs → cp.sum xs = S754_zero false.
Proof.
  unfold cp.sum. change (lit 0) with (S754_zero false).
  induction 1 as [|x xs -> _ IH]; [done|]. exact IH.
Qed.

Lemma b32_mean_zeros (xs : list num) :
  xs ≠ [] → Forall (λ x, x = S754_zero false) xs →
  cp.mean xs = S754_zero false.
Proof.
  intros Hne Hxs. unfold cp.mean. rewrite b32_sum_zeros by done.
  destruct xs as [|x xs]; [done|].
  change (lit (Z.of_nat (length (x :: xs))))
    with (Binary32.of_Z (Zpos (Pos.of_succ_nat (length xs)))).
  by destruct (of_Z_pos (Pos.of_succ_nat (length xs)))
    as [-> | (m & e & -> & _)].
Qed.

Lemma b32_rsi_alpha_small (p : nat) :
  1 ≤ p → Binary32.small (Spec.rsi_alpha p).
Proof.
  intros Hp. destruct p as [|p]; [lia|].
  change (Spec.rsi_alpha (S p))
    with (SFdiv Binary32.prec Binary32.emax Binary32.one
            (Binary32.of_Z (Zpos (Pos.of_succ_nat p)))).
  apply div_one_of_Z.
Qed.

(** One smoothing step keeps a zero average at zero. *)
Lemma b32_smooth_zero (alpha : spec_float) :
  Binary32.small alpha →
  smooth alpha (S754_zero false) (S754_zero false) = S754_zero false.
Proof.
  intros Ha. pose proof (sub_one_small alpha Ha) as Hs.
  unfold smooth.
  change (@fsub binary32 (@lit binary32 1) alpha)
    with (SFsub Binary32.prec Binary32.emax Binary32.one alpha).
  remember (SFsub Binary32.prec Binary32.emax Binary32.one alpha) as b eqn:Hb.
  clear Hb.
  destruct alpha as [sa|sa| |sa ma ea]; try done.
  - simpl in Ha. subst sa.
    destruct b as [s|s| |s m e]; try done; by destruct s.
  - destruct Ha as [-> _].
    destruct b as [s|s| |s m e]; try done; by destruct s.
Qed.

Lemma b32_wilder_zeros (p : nat) (xs : list num) (k : nat) :
  1 ≤ p → Forall (λ x, x = S754_zero false) xs → p + k ≤ length xs →
  Spec.wilder (Spec.rsi_alpha p) p xs k = S754_zero false.
Proof.
  intros Hp Hxs. induction k as [|k IH]; intros Hk; cbn [Spec.wilder].
  - apply b32_mean_zeros; [|by apply Forall_take].
    intros Hnil. apply (f_equal length) in Hnil.
    rewrite length_take in Hnil. cbn [length] in Hnil. lia.
  - rewrite IH by lia.
    assert (Hat : Spec.at_ xs (p + k) = S754_zero false).
    { assert (Hlt : p + k < length xs) by lia.
      exact (at_Forall (Sc:=binary32) (λ x, x = S754_zero false)
               xs (p + k) Hxs Hlt). }
    rewrite Hat. apply b32_smooth_zero. by apply b32_rsi_alpha_small.
Qed.

(** On a constant row of single-precision values, whatever the
    constant, the reference value from column [period] on is [+0.0]. *)
Lemma b32_rsi_at_constant (p : nat) (row : list num)
    (c : spec_float) (i : nat) :
  1 ≤ p → p ≤ i < length row → Forall (λ x, x = c) row →
  rsi_cell p row i = S754_zero false.
Proof.
  intros Hp Hi Hrow. rewrite rsi_at_ge by lia.
  destruct (b32_gains_constant c row Hrow) as [Hg Hl].
  assert (Hlen : length (cp.diff row) = length row - 1).
  { unfold cp.diff. rewrite length_zip_with, length_drop. lia. }
  assert (Hgl : p + (i - p) ≤ length (row_gains row)).
  { unfold row_gains. rewrite length_fmap. lia. }
  assert (Hll : p + (i - p) ≤ length (row_losses row)).
  { unfold row_losses. rewrite length_fmap. lia. }
  by rewrite !b32_wilder_zeros.
Qed.
End Binary32Rsi.

(** ** EMA with period 1 in single precision *)

Section Binary32Ema.
Local Existing Instance binary32.
Local Open Scope Z_scope.

Lemma shr_iter_xO (m : positive) (k : nat) :
  Nat.iter k shr_1
    (Build_shr_record (Zpos (Nat.iter k xO m)) false false)
  = Build_shr_record (Zpos m) false false.
Proof.
  induction k as [|k IH]; [done|].
  rewrite Nat.iter_succ_r, Nat.iter_succ. exact IH.
Qed.

Lemma pos_iter_nat (m k : positive) :
  Pos.iter xO m k = Nat.iter (Pos.to_nat k) xO m.
Proof.
  induction k as [|k IH] using Pos.peano_ind; [done|].
  by rewrite Pos.iter_succ, Pos2Nat.inj_succ, Nat.iter_succ, IH.
Qed.

(** Rounding a canonical value written with [k] more low zero bits
    gives the value back. *)
Lemma binary_round_aux_exact (s : bool) (m k : positive) (e : Z) :
  bounded Binary32.prec Binary32.emax m e = true →
  binary_round_aux Binary32.prec Binary32.emax s
    (Zpos (Pos.iter xO m k)) (e - Zpos k) loc_Exact
  = S754_finite s m e.
Proof.
  intros Hb. apply andb_prop in Hb as [Hc He].
  unfold canonical_mantissa in Hc. apply Z.eqb_eq in Hc.
  unfold binary_round_aux, shr_fexp. cbn [Zdigits2 shr_record_of_loc].
  rewrite digits2_pos_iter_xO.
  replace (Zpos (digits2_pos m) + Zpos k + (e - Zpos k))
    with (Zpos (digits2_pos m) + e) by lia.
  rewrite Hc. replace (e - (e - Zpos k)) with (Zpos k) by lia.
  cbn [shr]. rewrite iter_pos_nat, pos_iter_nat, shr_iter_xO.
  cbn [shr_m loc_of_shr_record round_nearest_even Zdigits2 shr_record_of_loc].
  replace (e - Zpos k + Zpos k) with e by lia.
  rewrite Hc, Z.sub_diag. cbn [shr shr_m]. by rewrite He.
Qed.

Lemma b32_mul_one (x : spec_float) :
  Binary32.finite x →
  SFmul Binary32.prec Binary32.emax Binary32.one x = x.
Proof.
  destruct x as [s|s| |s m e]; try done. intros Hb.
  change (SFmul Binary32.prec Binary32.emax Binary32.one (S754_finite s m e))
    with (binary_round_aux Binary32.prec Binary32.emax s
            (Zpos (Pos.iter xO m 23)) (-23 + e) loc_Exact).
  replace (-23 + e) with (e - 23) by lia.
  by apply binary_round_aux_exact.
Qed.

(** One step [alpha*x + (1 - alpha)*prev] with [alpha = 1]. *)
Lemma b32_ema_step (x prev : spec_float) :
  Binary32.finite x → Binary32.finite_or_zero prev →
  Binary32.same
    (fadd (fmul (Spec.ema_alpha 1) x)
          (fmul (fsub (lit 1) (Spec.ema_alpha 1)) prev)) x.
Proof.
  intros Hx Hprev.
  change (@fsub binary32 (lit 1) (Spec.ema_alpha 1)) with (S754_zero false).
  change (@fmul binary32 (Spec.ema_alpha 1) x)
    with (SFmul Binary32.prec Binary32.emax Binary32.one x).
  rewrite b32_mul_one by done.
  destruct prev as [sp|sp| |sp mp ep]; try done;
    destruct x as [sx|sx| |sx mx ex]; try done;
    try (by left);
    right; exists sx; destruct sx, sp; by eexists.
Qed.

Lemma same_finite_or_zero (y x : spec_float) :
  Binary32.finite x → Binary32.same y x → Binary32.finite_or_zero y.
Proof.
  intros Hx [->|(s & s' & -> & ->)]; [|done]. by destruct x.
Qed.

Lemma b32_ema_at_1 (row : list num) (i : nat) :
  Forall Binary32.finite row → (i < length row)%nat →
  Binary32.same (Spec.ema_at (Spec.ema_alpha 1) row i) (Spec.at_ row i).
Proof.
  intros Hrow. induction i as [|i IH]; intros Hi; cbn [Spec.ema_at].
  - by left.
  - assert (Hi' : (i < length row)%nat) by lia.
    pose proof (at_Forall (Sc:=binary32) Binary32.finite row i Hrow Hi')
      as Hprev.
    pose proof (at_Forall (Sc:=binary32) Binary32.finite row (S i) Hrow Hi)
      as Hx.
    apply b32_ema_step; [done|].
    by apply (same_finite_or_zero _ (Spec.at_ row i)); [|apply IH].
Qed.
End Binary32Ema.

(** ** Shapes of the outputs *)

Section ShapeFacts.
Context {A B : Type}.

Lemma tabulate_wf n (f : list A → nat → B) rs : wf (tabulate n f rs).
Proof.
  unfold wf, tabulate. cbn [rows ncols]. apply Forall_fmap, Forall_true.
  intros row. cbn. by rewrite length_fmap, length_seq.
Qed.

Lemma tabulate_shape n (f : list A → nat → B) rs :
  shape (tabulate n f rs) = (length rs, n).
Proof. unfold shape, tabulate. cbn [rows ncols]. by rewrite length_fmap. Qed.
End ShapeFacts.

(** ** What the RSI kernel reads *)

Section Differences.
Context {Sc : Scalar}.

End Differences.

(** ** The first column of MACD and a zero Bollinger period in single
    precision *)

Section FullFacts.
Context {A : Type}.

(** Writing the fill value again changes nothing. *)
Lemma setitem_col_full (S T i : nat) (x : A) :
  i < T →
  cp.setitem_col (cp.full S T x) i (replicate S x) = Ok (cp.full S T x).
Proof.
  intros Hi. unfold cp.setitem_col, cp.full. cbn [ncols rows].
  rewrite decide_True by done. do 2 f_equal.
  induction S as [|S IH]; [done|]. cbn [replicate zip_with]. f_equal; [|done].
  apply list_eq. intros j. destruct (decide (j = i)) as [->|Hne].
  - rewrite list_lookup_insert_eq by (by rewrite length_replicate).
    symmetry. by apply lookup_replicate_2.
  - by rewrite list_lookup_insert_ne.
Qed.

Lemma py_slice_empty (l : list A) (lo : Z) : py_slice l lo lo = [].
Proof. unfold py_slice. cbv zeta. by rewrite Nat.sub_diag. Qed.
End FullFacts.

Section Binary32Edges.
Local Existing Instance binary32.

Lemma b32_sub_self_finite (x : spec_float) :
  Binary32.finite x → fsub x x = S754_zero false.
Proof.
  destruct x as [[]| | |s m e]; cbn [fsub binary32 SFsub]; try done.
  intros _. by rewrite Z.sub_diag.
Qed.

Lemma b32_mean_nil : cp.mean [] = S754_nan.
Proof. reflexivity. Qed.

Lemma b32_std_nil : cp.std [] = S754_nan.
Proof. reflexivity. Qed.

(** With a zero period every window is empty and every step writes
    not-a-number over not-a-number. *)
Lemma bollinger_step_zero_period (rs : list (list num)) (T : nat)
    (m : num) (i : Z) :
  (- Z.of_nat T ≤ i < Z.of_nat T)%Z →
  let F := cp.full (length rs) T nan in
  bollinger_step rs 0 m (F, F, F) i = Ok (F, F, F).
Proof.
  intros Hi F.
  assert (Hidx : ∃ j, py_index T i = Ok j ∧ j < T).
  { unfold py_index. destruct (decide (0 ≤ i < Z.of_nat T)%Z).
    - eexists. split; [done|]. lia.
    - rewrite decide_True by lia. eexists. split; [done|]. lia. }
  destruct Hidx as (j & Hj & HjT).
  assert (Hw : (λ row : list num,
                  py_slice row (i - Z.of_nat 0 + 1) (i + 1)) <$> rs
               = replicate (length rs) []).
  { replace (i - Z.of_nat 0 + 1)%Z with (i + 1)%Z by lia.
    induction rs as [|row rs IH]; [done|]. cbn [fmap list_fmap length replicate].
    rewrite py_slice_empty. f_equal. exact IH. }
  unfold bollinger_step. cbv zeta. rewrite Hw.
  rewrite !fmap_replicate, b32_mean_nil, b32_std_nil.
  rewrite !zip_with_replicate.
  unfold cp.setitem_col_int. cbn [ncols cp.full F]. rewrite Hj.
  cbn [mbind result_bind]. change (S754_nan) with (nan (Scalar:=binary32)).
  assert (Hu : fadd nan (fmul m nan) = nan) by (by destruct m).
  assert (Hl : fsub nan (fmul m nan) = nan) by (by destruct m).
  rewrite Hu, Hl. subst F.
  rewrite setitem_col_full by done. by cbn [mbind result_bind].
Qed.

Lemma bollinger_loop_zero_period (rs : list (list num)) (T : nat)
    (m : num) (idx : list Z) :
  Forall (λ i, (- Z.of_nat T ≤ i < Z.of_nat T)%Z) idx →
  let F := cp.full (length rs) T nan in
  for_each (bollinger_step rs 0 m) (F, F, F) idx = Ok (F, F, F).
Proof.
  intros His F. subst F. induction His as [|i idx Hi _ IH]; [done|].
  cbn [for_each].
  pose proof (bollinger_step_zero_period rs T m i Hi) as Hstep.
  cbv zeta in Hstep. rewrite Hstep. exact IH.
Qed.
End Binary32Edges.

(** ** The kernel's gains and losses against the specification's

    [cp.where(d > 0, d, 0)] is [max(d, 0)] as it stands;
    [cp.where(d < 0, -d, 0)] is [max(-d, 0)] in an arithmetic where
    [0 < -d] and [d < 0] say the same. *)

Section RsiReference.
Context {Sc : Scalar}.
Hypothesis flt_neg : ∀ d : num, flt (lit 0) (fneg d) = flt d (lit 0).

Lemma gains_max (row : list num) : Spec.gains row = row_gains row.
Proof. done. Qed.

Lemma losses_max (row : list num) : Spec.losses row = row_losses row.
Proof.
  unfold Spec.losses, row_losses. apply list_fmap_ext. intros _ d _.
  unfold Spec.fmax, loss. by rewrite flt_neg.
Qed.

Lemma rsi_cell_reference (p : nat) (row : list num) (i : nat) :
  rsi_cell p row i = Spec.rsi_at p row i.
Proof.
  unfold rsi_cell, Spec.rsi_at. case_decide; [done|]. cbv zeta.
  by rewrite <- (losses_max row).
Qed.

Lemma rsi_cells_reference (a : ndarray num) (p : nat) :
  rsi_cells a p = Spec.rsi a p.
Proof.
  unfold rsi_cells, Spec.rsi. apply tabulate_ext. intros row i _.
  apply rsi_cell_reference.
Qed.
End RsiReference.

(** In single precision [0 < -d] and [d < 0] say the same of every
    value, not-a-number and the zeros included. *)
Lemma b32_flt_neg (d : @num binary32) :
  @flt binary32 (lit 0) (fneg d) = @flt binary32 d (lit 0).
Proof. by destruct d as [[]|[]| |[] m e]. Qed.

(** * The claims *)

(** C1.  The specification says that a history shorter than
    [period + 1] columns gives an all-sentinel output and no error.
    With exactly [period] columns that is not what the code does: the
    guard [data_length >= period] lets the call through and the write
    to column [period] raises [IndexError], whatever the rows hold. *)
Theorem rsi_batch_exactly_period_columns_raises :
  ∀ (Sc : Scalar) (rs : list (list num)) (p : nat),
    rsi_batch (NdArray (Array2D (mk_ndarray p rs))) p = Raise IndexError.
Proof. intros Sc rs p. rewrite rsi_batch_array. by apply rsi_kernel_eq_period. Qed.

(** Below [period] columns the output is the sentinel everywhere, as
    the specification says. *)
Lemma rsi_batch_below_period_all_sentinel :
  ∀ (Sc : Scalar) (a : ndarray num) (p : nat),
    ncols a < p →
    rsi_batch (NdArray (Array2D a)) p
    = Ok (cp.full (length (rows a)) (ncols a) nan).
Proof. intros Sc a p HT. rewrite rsi_batch_array. by apply rsi_kernel_short. Qed.

(** C2, as stated, fails: on the one-row series 100, 100, 100 with
    period 2 the value at column 2 is zero, in single precision and in
    exact arithmetic, not 50.  All gains and losses are zero, so
    [rs = 0 / (0 + 1e-10) = 0] and [100 - 100 / (1 + 0) = 0]. *)
Lemma rsi_constant_series_is_not_50 :
  (let a : ndarray (@num binary32) :=
     mk_ndarray 3 [[Binary32.of_Z 100; Binary32.of_Z 100; Binary32.of_Z 100]] in
   rsi_batch (Sc:=binary32) (NdArray (Array2D a)) 2
   = Ok (mk_ndarray 3 [[S754_nan; S754_nan; S754_zero false]])
   ∧ SFeqb (S754_zero false) (Binary32.of_Z 50) = false)
  ∧ (let a := Real.array (mk_ndarray 3 [[100; 100; 100]])%R in
     ∃ out, rsi_batch (Sc:=exact_real) (NdArray (Array2D a)) 2 = Ok out
       ∧ cell out 0 2 = Some (XFin 0)
       ∧ XFin 0 ≠ XFin 50).
Proof.
  split.
  - split; vm_compute; reflexivity.
  - cbv zeta. eexists. split; [|split].
    + rewrite (rsi_batch_cases (Sc:=exact_real)) by lia.
      rewrite decide_False by (simpl; lia). reflexivity.
    + unfold rsi_cells.
      rewrite (cell_tabulate _ _ _ _ _ (XFin <$> [100; 100; 100])%R)
        by (done || (simpl; lia)).
      destruct (exact_rsi_at 2 [100; 100; 100]%R 2) as [Heq _];
        [lia | simpl; lia |].
      rewrite Heq. do 2 f_equal.
      apply (exact_rsi_at_constant 2 _ 100%R).
      by repeat constructor.
    + intros H. injection H. lra.
Qed.

(** C2, as the code has it.  For every series whose rows are constant
    (whatever the constants), with at least [period + 1] columns, the
    RSI operation returns exactly zero, the single-precision [+0.0],
    at every column index from [period] on. *)
Theorem rsi_constant_series_is_zero :
  ∀ (cs : list spec_float) (T p : nat),
    1 ≤ p → p + 1 ≤ T →
    ∃ out,
      rsi_batch (Sc:=binary32)
        (NdArray (Array2D
           (mk_ndarray T ((λ c : spec_float, replicate T c) <$> cs)))) p
      = Ok out
      ∧ ∀ r i, r < length cs → p ≤ i < T →
          cell out r i = Some (S754_zero false).
Proof.
  intros cs T p Hp HT.
  set (a := mk_ndarray T ((λ c : spec_float, replicate T c) <$> cs)
         : ndarray (@num binary32)).
  exists (rsi_cells (Sc:=binary32) a p). split.
  - rewrite (rsi_batch_cases (Sc:=binary32)) by done.
    rewrite decide_False by (simpl; lia). done.
  - intros r i Hr Hi.
    destruct (lookup_lt_is_Some_2 cs r Hr) as [c Hc].
    assert (Hrow : rows a !! r = Some (replicate T c)).
    { simpl. by rewrite list_lookup_fmap, Hc. }
    unfold rsi_cells.
    rewrite (cell_tabulate _ _ _ _ _ _ Hrow) by (simpl; lia).
    f_equal. apply (b32_rsi_at_constant p _ c); [done| |].
    + rewrite length_replicate. lia.
    + by apply Forall_replicate.
Qed.

Lemma rsi_constant_series_is_zero_witness :
  (1 ≤ 2 ∧ 2 + 1 ≤ 3)
  ∧ ∃ out,
      rsi_batch (Sc:=binary32)
        (NdArray (Array2D
           (mk_ndarray 3
              ((λ c : spec_float, replicate 3 c) <$> [Binary32.of_Z 100])))) 2
      = Ok out
      ∧ ∀ r i, r < length [Binary32.of_Z 100] → 2 ≤ i < 3 →
          cell out r i = Some (S754_zero false).
Proof.
  split; [lia|].
  apply (rsi_constant_series_is_zero [Binary32.of_Z 100] 3 2); lia.
Defined.

(** The same in exact arithmetic: the real number 0. *)
Lemma rsi_of_constant_series_exact :
  ∀ (cs : list R) (T p : nat),
    1 ≤ p → p + 1 ≤ T →
    ∃ out,
      rsi_batch (Sc:=exact_real)
        (NdArray (Array2D
           (Real.array (mk_ndarray T ((λ c : R, replicate T c) <$> cs))))) p
      = Ok out
      ∧ ∀ r i, r < length cs → p ≤ i < T → cell out r i = Some (XFin 0).
Proof.
  intros cs T p Hp HT.
  set (a := mk_ndarray T ((λ c : R, replicate T c) <$> cs)).
  exists (rsi_cells (Sc:=exact_real) (Real.array a) p). split.
  - rewrite (rsi_batch_cases (Sc:=exact_real)) by done.
    rewrite decide_False by (simpl; lia). done.
  - intros r i Hr Hi.
    destruct (lookup_lt_is_Some_2 cs r Hr) as [c Hc].
    assert (Hrow : rows (Real.array a) !! r = Some (XFin <$> replicate T c)).
    { apply cell_real_array; [exact 0%nat|]. simpl.
      by rewrite list_lookup_fmap, Hc. }
    unfold rsi_cells.
    rewrite (cell_tabulate _ _ _ _ _ _ Hrow) by (simpl; lia).
    destruct (exact_rsi_at p (replicate T c) i Hp) as [Heq _].
    { rewrite length_replicate. lia. }
    rewrite Heq. do 2 f_equal.
    apply (exact_rsi_at_constant p _ c).
    by apply Forall_replicate.
Qed.

(** C3.  The specification gives, for every matrix and every row, an
    output with the sentinel below column [period].  On the one-row
    history [[x, y]] with [period = 2] there is no output at all. *)
Theorem rsi_batch_two_prices_period_two_no_output :
  ∀ (Sc : Scalar) (x y : num) (out : ndarray num),
    rsi_batch (NdArray (Array2D (mk_ndarray 2 [[x; y]]))) 2 ≠ Ok out.
Proof.
  intros Sc x y out. rewrite rsi_batch_array.
  by rewrite rsi_kernel_eq_period.
Qed.

(** Away from that shape the sentinel part of C3 holds for every
    interpretation of the scalars. *)
Lemma rsi_batch_sentinel_below_period :
  ∀ (Sc : Scalar) (a : ndarray num) (p : nat),
    1 ≤ p → ncols a ≠ p →
    ∃ out, rsi_batch (NdArray (Array2D a)) p = Ok out
      ∧ ∀ r i, r < length (rows a) → i < ncols a → i < p →
          cell out r i = Some nan.
Proof.
  intros Sc a p Hp HT. exists (rsi_cells a p). split.
  - rewrite rsi_batch_cases by done. by rewrite decide_False.
  - intros r i Hr Hi Hip.
    destruct (lookup_lt_is_Some_2 (rows a) r Hr) as [row Hrow].
    unfold rsi_cells. rewrite (cell_tabulate _ _ _ _ _ row) by done.
    by rewrite rsi_at_lt.
Qed.

(** From column [period] on the values are real numbers of [0, 100] in
    exact arithmetic ([exact_rsi_sentinel_and_range]).  Single
    precision has one more outcome: when the differences of finite
    prices overflow on both sides, [rs] is [inf / inf] and the cell is
    not-a-number. *)
Lemma rsi_batch_binary32_overflow :
  let big := S754_finite false 16777215 104 in
  let a : ndarray (@num binary32) :=
    mk_ndarray 3 [[SFopp big; big; SFopp big]] in
  Forall (Forall Binary32.finite) (rows a)
  ∧ rsi_batch (Sc:=binary32) (NdArray (Array2D a)) 2
    = Ok (mk_ndarray 3 [[S754_nan; S754_nan; S754_nan]]).
Proof.
  split; [by repeat (constructor; try reflexivity) | vm_compute; reflexivity].
Qed.

(** C4.  With at least [period + 1] columns (and [period ≥ 1]) the RSI
    operation returns the array of the reference definition
    [Spec.rsi], whose gains and losses are [max(diff, 0)] and
    [max(-diff, 0)] of the first differences: the sentinel below
    column [period]; at column [period] the value [100 - 100/(1+rs)]
    with [rs] from the means of the first [period] gains and losses;
    at each later column the same value after one more step
    [avg = (1/period)*x[i-1] + (1 - 1/period)*avg].  This holds in
    every arithmetic in which [0 < -d] and [d < 0] say the same, as
    they do in single precision. *)
Theorem rsi_batch_refines_spec :
  ∀ (Sc : Scalar) (a : ndarray num) (p : nat),
    (∀ d : num, flt (lit 0) (fneg d) = flt d (lit 0)) →
    1 ≤ p → p + 1 ≤ ncols a →
    rsi_batch (NdArray (Array2D a)) p = Ok (Spec.rsi a p).
Proof.
  intros Sc a p Hneg Hp HT. rewrite rsi_batch_array.
  rewrite rsi_kernel_spec by lia. f_equal.
  by apply rsi_cells_reference.
Qed.

Lemma rsi_batch_refines_spec_witness :
  let a : ndarray (@num binary32) :=
    mk_ndarray 3 [[Binary32.of_Z 1; Binary32.of_Z 2; Binary32.of_Z 3]] in
  ((∀ d : @num binary32,
      @flt binary32 (lit 0) (fneg d) = @flt binary32 d (lit 0))
   ∧ 1 ≤ 2 ∧ 2 + 1 ≤ ncols a)
  ∧ rsi_batch (Sc:=binary32) (NdArray (Array2D a)) 2
    = Ok (Spec.rsi (Sc:=binary32) a 2).
Proof.
  intros a. split; [split; [exact b32_flt_neg | simpl; lia]|].
  apply (rsi_batch_refines_spec binary32 a 2 b32_flt_neg); simpl; lia.
Defined.

(** C5, as stated, fails in the arithmetic of the code.  On the finite
    single-precision window [[max, max]] (the largest float, about
    3.4e38) with [w = 2] the sum overflows: the middle band is
    [+inf], not the mean of the window, the lower band is
    not-a-number, and so is [upper - middle]. *)
Lemma bollinger_bands_overflow :
  let big : @num binary32 := S754_finite false 16777215 104 in
  let a : ndarray (@num binary32) := mk_ndarray 2 [[big; big]] in
  Forall (Forall Binary32.finite) (rows a)
  ∧ bollinger_bands_batch (Sc:=binary32) (NdArray (Array2D a)) 2
      (Binary32.of_Z 2)
    = Ok (mk_ndarray 2 [[S754_nan; S754_infinity false]],
          mk_ndarray 2 [[S754_nan; S754_infinity false]],
          mk_ndarray 2 [[S754_nan; S754_nan]])
  ∧ @fsub binary32 (S754_infinity false) (S754_infinity false) = S754_nan.
Proof.
  split; [by repeat (constructor; try reflexivity)|].
  split; vm_compute; reflexivity.
Qed.

(** C5, as the code has it.  For every window [w ≥ 1], every price
    matrix, every row and every column index [i] from [w - 1] to
    [T - 1], in every arithmetic: the middle band at [[r, i]] is the
    mean of the trailing window [prices[r, i-w+1 : i+1]] as that
    arithmetic computes it, and the upper and lower bands are that
    mean plus and minus [stdMultiplier] times the population standard
    deviation of the window as that arithmetic computes it. *)
Theorem bollinger_bands_window_mean_and_std :
  ∀ (Sc : Scalar) (a : ndarray num) (w : nat) (k : num) (r i : nat)
    (row : list num),
    1 ≤ w → rows a !! r = Some row → w - 1 ≤ i < ncols a →
    ∃ upper middle lower,
      bollinger_bands_batch (NdArray (Array2D a)) w k
      = Ok (upper, middle, lower)
      ∧ let window := take w (drop (i + 1 - w) row) in
        cell middle r i = Some (cp.mean window)
        ∧ cell upper r i
          = Some (fadd (cp.mean window) (fmul k (cp.std window)))
        ∧ cell lower r i
          = Some (fsub (cp.mean window) (fmul k (cp.std window))).
Proof.
  intros Sc a w k r i row Hw Hrow Hi. eexists _, _, _. split.
  - rewrite bollinger_bands_batch_array. by apply bollinger_kernel_spec.
  - cbv zeta. rewrite !(cell_tabulate _ _ _ _ _ _ Hrow) by lia.
    unfold Spec.middle_at, Spec.upper_at, Spec.lower_at, Spec.window.
    by rewrite !decide_False by lia.
Qed.

Lemma bollinger_bands_window_mean_and_std_witness :
  let row : list (@num binary32) := Binary32.of_Z <$> [1; 3; 2]%Z in
  let a : ndarray (@num binary32) := mk_ndarray 3 [row] in
  let k : @num binary32 := Binary32.of_Z 2 in
  (1 ≤ 2 ∧ rows a !! 0 = Some row ∧ 2 - 1 ≤ 1 < ncols a)
  ∧ ∃ upper middle lower,
      bollinger_bands_batch (Sc:=binary32) (NdArray (Array2D a)) 2 k
      = Ok (upper, middle, lower)
      ∧ let window := take 2 (drop (1 + 1 - 2) row) in
        cell middle 0 1 = Some (cp.mean (Sc:=binary32) window)
        ∧ cell upper 0 1
          = Some (@fadd binary32 (cp.mean window)
                    (fmul k (cp.std window)))
        ∧ cell lower 0 1
          = Some (@fsub binary32 (cp.mean window)
                    (fmul k (cp.std window))).
Proof.
  intros row a k.
  assert (H1 : 1 ≤ 2) by lia.
  assert (H2 : rows a !! 0 = Some row) by reflexivity.
  assert (H3 : 2 - 1 ≤ 1 < ncols a) by (simpl; lia).
  split; [done|].
  exact (bollinger_bands_window_mean_and_std binary32 a 2 k 0 1 row
           H1 H2 H3).
Defined.

(** Over the real numbers, where nothing is rounded and nothing
    overflows, the same cells give [upper - middle] and
    [middle - lower] both equal to [stdMultiplier] times the
    population standard deviation of the window. *)
Lemma bollinger_bands_mean_and_width_exact :
  ∀ (a : ndarray R) (w : nat) (k : R) (r i : nat) (row : list R),
    wf a → 1 ≤ w → w ≤ ncols a →
    rows a !! r = Some row → w - 1 ≤ i < ncols a →
    ∃ upper middle lower,
      bollinger_bands_batch (Sc:=exact_real)
        (NdArray (Array2D (Real.array a))) w (XFin k)
      = Ok (upper, middle, lower)
      ∧ let window := take w (drop (i + 1 - w) row) in
        ∃ u l : R,
          cell upper r i = Some (XFin u)
          ∧ cell middle r i = Some (XFin (Real.mean window))
          ∧ cell lower r i = Some (XFin l)
          ∧ (u - Real.mean window = k * Real.std window)%R
          ∧ (Real.mean window - l = k * Real.std window)%R.
Proof.
  intros a w k r i row Hwf Hw HT Hrow Hi.
  pose proof (wf_lookup a r row Hwf Hrow) as Hlen.
  eexists _, _, _. split.
  - rewrite bollinger_bands_batch_array.
    by apply (bollinger_kernel_spec (Sc:=exact_real)).
  - intros window.
    destruct (exact_bands w i k row Hw) as (Hm & Hu & Hl); [lia|].
    pose proof (cell_real_array a r 0 row Hrow) as Hrow'.
    exists (Real.mean window + k * Real.std window)%R,
           (Real.mean window - k * Real.std window)%R.
    rewrite !(cell_tabulate _ _ _ _ _ _ Hrow') by (simpl; lia).
    rewrite Hm, Hu, Hl.
    repeat split; lra.
Qed.

Lemma cell_array_sub {Sc : Scalar} (a b : ndarray num) (r i : nat) (x y : num) :
  cell a r i = Some x → cell b r i = Some y →
  cell (array_sub a b) r i = Some (fsub x y).
Proof.
  unfold cell, array_sub. simpl. intros Ha Hb.
  rewrite lookup_zip_with.
  destruct (rows a !! r) as [ra|]; [|done].
  destruct (rows b !! r) as [rb|]; [|done]. simpl in *.
  rewrite lookup_zip_with. by rewrite Ha, Hb.
Qed.

(** C6, as the code has it.  On a matrix with at least one column the
    MACD operation returns the composition of the specification:
    [macdLine = EMA(prices, fast) - EMA(prices, slow)],
    [signalLine = EMA(macdLine, signal)] and
    [histogram = macdLine - signalLine], the last at every cell. *)
Theorem macd_batch_refines_spec :
  ∀ (Sc : Scalar) (a : ndarray num) (fast slow signal : nat),
    0 < ncols a →
    ∃ macd_line signal_line histogram,
      macd_batch (NdArray (Array2D a)) fast slow signal
      = Ok (macd_line, signal_line, histogram)
      ∧ macd_line = array_sub (Spec.ema a fast) (Spec.ema a slow)
      ∧ signal_line = Spec.ema macd_line signal
      ∧ histogram = array_sub macd_line signal_line
      ∧ ∀ r i x y, cell macd_line r i = Some x →
          cell signal_line r i = Some y →
          cell histogram r i = Some (fsub x y).
Proof.
  intros Sc a fast slow signal HT.
  eexists _, _, _. split; [|split; [|split; [|split]]].
  - rewrite macd_batch_array. by apply macd_kernel_spec.
  - done.
  - done.
  - done.
  - intros r i x y Hx Hy. by apply cell_array_sub.
Qed.

Lemma macd_batch_refines_spec_witness :
  let a : ndarray (@num binary32) :=
    mk_ndarray 2 [[Binary32.of_Z 1; Binary32.of_Z 2]] in
  0 < ncols a
  ∧ ∃ macd_line signal_line histogram,
      macd_batch (Sc:=binary32) (NdArray (Array2D a)) 12 26 9
      = Ok (macd_line, signal_line, histogram)
      ∧ macd_line
        = array_sub (Sc:=binary32) (Spec.ema (Sc:=binary32) a 12)
            (Spec.ema (Sc:=binary32) a 26)
      ∧ signal_line = Spec.ema (Sc:=binary32) macd_line 9
      ∧ histogram = array_sub (Sc:=binary32) macd_line signal_line
      ∧ ∀ r i x y, cell macd_line r i = Some x →
          cell signal_line r i = Some y →
          cell histogram r i = Some (fsub (Scalar:=binary32) x y).
Proof.
  split; [simpl; lia|].
  apply (macd_batch_refines_spec binary32). simpl. lia.
Defined.

(** Without a column the seed of the first EMA is out of bounds: the
    operation raises where the composition of the specification is the
    empty array. *)
Lemma macd_batch_no_column_raises :
  let a : ndarray (@num binary32) := mk_ndarray 0 [[]] in
  macd_batch (Sc:=binary32) (NdArray (Array2D a)) 12 26 9 = Raise IndexError
  ∧ macd_batch (Sc:=binary32) (NdArray (Array2D a)) 12 26 9
    ≠ Ok (Spec.macd (Sc:=binary32) a 12 26 9).
Proof. split; [reflexivity | discriminate]. Qed.




(** C8, as stated, fails on a matrix without columns, where the seed
    [ema[:, 0] = data[:, 0]] raises [IndexError], and on a matrix that
    holds an infinity, which the step [0 * inf] turns into
    not-a-number. *)
Lemma ema_period_1_no_column_raises :
  (let a : ndarray (@num binary32) := mk_ndarray 0 [[]] in
   _ema_gpu (Sc:=binary32) a 1 = Raise IndexError
   ∧ _ema_gpu (Sc:=binary32) a 1 ≠ Ok a)
  ∧ (let a : ndarray (@num binary32) :=
       mk_ndarray 2 [[S754_infinity false; Binary32.one]] in
     _ema_gpu (Sc:=binary32) a 1
     = Ok (mk_ndarray 2 [[S754_infinity false; S754_nan]])).
Proof. split; [split; [reflexivity | discriminate] | reflexivity]. Qed.

(** C8, as the code has it.  On every matrix of finite
    single-precision values with at least one column, EMA with period
    1 ([alpha = 1]) returns its input: every output cell equals the
    input cell, as [==] compares floats (the same value, a zero
    possibly with the other sign). *)
Theorem ema_period_1_is_identity :
  ∀ a : ndarray (@num binary32),
    wf a → 0 < ncols a → Forall (Forall Binary32.finite) (rows a) →
    ∃ out,
      _ema_gpu (Sc:=binary32) a 1 = Ok out
      ∧ ∀ r i x, cell a r i = Some x →
          ∃ y, cell out r i = Some y ∧ Binary32.same y x.
Proof.
  intros a Hwf HT Hfin. exists (Spec.ema (Sc:=binary32) a 1). split.
  - by apply (ema_gpu_spec (Sc:=binary32)).
  - intros r i x Hcell. unfold cell in Hcell.
    destruct (rows a !! r) as [row|] eqn:Hrow; [|done].
    change (row !! i = Some x) in Hcell.
    pose proof (wf_lookup a r row Hwf Hrow) as Hlen.
    pose proof (lookup_lt_Some _ _ _ Hcell) as Hi.
    pose proof (Forall_lookup_1 _ _ _ _ Hfin Hrow) as Hrowfin.
    exists (Spec.ema_at (Sc:=binary32) (Spec.ema_alpha 1) row i). split.
    + unfold Spec.ema. apply cell_tabulate; [done|].
      rewrite <- Hlen. exact Hi.
    + pose proof (b32_ema_at_1 row i Hrowfin Hi) as Hsame.
      unfold Spec.at_ in Hsame. by rewrite Hcell in Hsame.
Qed.

Lemma ema_period_1_is_identity_witness :
  let a : ndarray (@num binary32) :=
    mk_ndarray 3 [Binary32.of_Z <$> [1; 3; 2]%Z;
                  Binary32.of_Z <$> [5; 4; 6]%Z] in
  (wf a ∧ 0 < ncols a ∧ Forall (Forall Binary32.finite) (rows a))
  ∧ ∃ out,
      _ema_gpu (Sc:=binary32) a 1 = Ok out
      ∧ ∀ r i x, cell a r i = Some x →
          ∃ y, cell out r i = Some y ∧ Binary32.same y x.
Proof.
  intros a.
  assert (Hwf : wf a) by (repeat constructor).
  assert (HT : 0 < ncols a) by (simpl; lia).
  assert (Hfin : Forall (Forall Binary32.finite) (rows a))
    by (repeat (constructor; try reflexivity)).
  split; [by repeat split|].
  exact (ema_period_1_is_identity a Hwf HT Hfin).
Defined.

(** The same in exact arithmetic: on a real matrix with at least one
    column the output is the input. *)
Lemma ema_of_period_1_exact :
  ∀ a : ndarray R,
    wf a → 0 < ncols a →
    _ema_gpu (Sc:=exact_real) (Real.array a) 1 = Ok (Real.array a).
Proof.
  intros a Hwf HT.
  rewrite (ema_gpu_spec (Sc:=exact_real)) by done.
  f_equal. by apply exact_ema_period_1.
Qed.

(** C9.  For every period of at least 1 the Bollinger operation
    returns, and upper, middle and lower hold the sentinel at every
    column index below [period - 1]; with fewer than [period] columns
    the three outputs are the sentinel everywhere. *)
Theorem bollinger_warm_up_is_sentinel :
  ∀ (Sc : Scalar) (a : ndarray num) (p : nat) (m : num),
    1 ≤ p →
    ∃ upper middle lower,
      bollinger_bands_batch (NdArray (Array2D a)) p m
      = Ok (upper, middle, lower)
      ∧ (∀ r i, r < length (rows a) → i < ncols a → i < p - 1 →
           cell upper r i = Some nan
           ∧ cell middle r i = Some nan
           ∧ cell lower r i = Some nan)
      ∧ (ncols a < p →
           upper = cp.full (length (rows a)) (ncols a) nan
           ∧ middle = cp.full (length (rows a)) (ncols a) nan
           ∧ lower = cp.full (length (rows a)) (ncols a) nan).
Proof.
  intros Sc a p m Hp.
  exists (tabulate (ncols a) (Spec.upper_at p m) (rows a)),
         (tabulate (ncols a) (Spec.middle_at p) (rows a)),
         (tabulate (ncols a) (Spec.lower_at p m) (rows a)).
  split; [|split].
  - rewrite bollinger_bands_batch_array. by apply bollinger_kernel_spec.
  - intros r i Hr Hi Hip.
    destruct (lookup_lt_is_Some_2 (rows a) r Hr) as [row Hrow].
    rewrite !(cell_tabulate _ _ _ _ _ row) by done.
    unfold Spec.upper_at, Spec.middle_at, Spec.lower_at.
    by rewrite !decide_True by done.
  - intros HT. rewrite !full_tabulate.
    split; [|split]; apply tabulate_ext; intros row i Hi.
    + unfold Spec.upper_at. by rewrite decide_True by lia.
    + unfold Spec.middle_at. by rewrite decide_True by lia.
    + unfold Spec.lower_at. by rewrite decide_True by lia.
Qed.

Lemma bollinger_warm_up_is_sentinel_witness :
  let a : ndarray (@num binary32) :=
    mk_ndarray 2 [[Binary32.of_Z 1; Binary32.of_Z 2];
                  [Binary32.of_Z 3; Binary32.of_Z 4]] in
  1 ≤ 3
  ∧ ∃ upper middle lower,
      bollinger_bands_batch (Sc:=binary32) (NdArray (Array2D a)) 3
        (Binary32.of_Z 2)
      = Ok (upper, middle, lower)
      ∧ (∀ r i, r < length (rows a) → i < ncols a → i < 3 - 1 →
           cell upper r i = Some S754_nan
           ∧ cell middle r i = Some S754_nan
           ∧ cell lower r i = Some S754_nan)
      ∧ (ncols a < 3 →
           upper = cp.full (length (rows a)) (ncols a) S754_nan
           ∧ middle = cp.full (length (rows a)) (ncols a) S754_nan
           ∧ lower = cp.full (length (rows a)) (ncols a) S754_nan).
Proof.
  split; [lia|].
  apply (bollinger_warm_up_is_sentinel binary32). lia.
Defined.

(** C10.  A nested list is first converted with
    [np.array(_, dtype=np.float32)]; each public method applied to the
    list returns what it returns on the array of that conversion. *)
Theorem list_input_same_as_float32_array :
  ∀ (Sc : Scalar) (l : list (list pyfloat)) (h : host_array),
    np_array l = Ok h →
    (∀ p, rsi_batch (PyList l) p = rsi_batch (NdArray h) p)
    ∧ (∀ p m, bollinger_bands_batch (PyList l) p m
              = bollinger_bands_batch (NdArray h) p m)
    ∧ (∀ fast slow signal,
         macd_batch (PyList l) fast slow signal
         = macd_batch (NdArray h) fast slow signal).
Proof.
  intros Sc l h Hl.
  assert (Hgpu : to_gpu (PyList l) = to_gpu (NdArray h)).
  { unfold to_gpu. by rewrite Hl. }
  unfold rsi_batch, bollinger_bands_batch, macd_batch.
  by rewrite Hgpu.
Qed.

(** Rows of one length convert to the two-dimensional array of their
    float32 values. *)
Lemma np_array_equal_rows :
  ∀ (Sc : Scalar) (l : list (list pyfloat)) (n : nat),
    l ≠ [] → Forall (λ r : list pyfloat, length r = n) l →
    np_array l
    = Ok (Array2D (mk_ndarray n ((λ r : list pyfloat, to_num <$> r) <$> l))).
Proof.
  intros Sc l n Hne Hl. destruct l as [|row l]; [done|].
  unfold np_array. rewrite decide_True.
  - do 3 f_equal. by inversion Hl.
  - inversion Hl as [|?? Hrow ?]; subst.
    eapply Forall_impl; [exact Hl|]. intros r Hr. simpl in Hr. congruence.
Qed.

Lemma list_input_same_as_float32_array_witness :
  let one := Binary32.double_of_Z 1 in
  let l := [[one; one]; [one; one]] in
  let h :=
    Array2D (Sc:=binary32)
      (mk_ndarray 2 ((λ r : list spec_float, Binary32.of_double <$> r) <$> l)) in
  np_array (Sc:=binary32) l = Ok h
  ∧ (∀ p, rsi_batch (PyList (Sc:=binary32) l) p = rsi_batch (NdArray h) p)
  ∧ (∀ p m, bollinger_bands_batch (PyList (Sc:=binary32) l) p m
            = bollinger_bands_batch (NdArray h) p m)
  ∧ (∀ fast slow signal,
       macd_batch (PyList (Sc:=binary32) l) fast slow signal
       = macd_batch (NdArray h) fast slow signal).
Proof.
  intros one l h.
  assert (Hl : np_array (Sc:=binary32) l = Ok h) by reflexivity.
  split; [exact Hl|].
  exact (list_input_same_as_float32_array binary32 l h Hl).
Defined.

(** * Further properties of the code *)

(** ** Errors, edges and shapes *)

(** For a period of at least 1 that is not the number of columns, in
    every arithmetic, [rsi_batch] returns an array of the shape of its
    input that holds the sentinel at every column index below
    [period]; with fewer than [period] columns it is the sentinel
    everywhere. *)
Theorem rsi_batch_warm_up_is_sentinel :
  ∀ (Sc : Scalar) (a : ndarray num) (p : nat),
    1 ≤ p → ncols a ≠ p →
    ∃ out,
      rsi_batch (NdArray (Array2D a)) p = Ok out
      ∧ wf out ∧ shape out = shape a
      ∧ (∀ r i, r < length (rows a) → i < ncols a → i < p →
           cell out r i = Some nan)
      ∧ (ncols a < p → out = cp.full (length (rows a)) (ncols a) nan).
Proof.
  intros Sc a p Hp HT. exists (rsi_cells a p).
  split; [|split; [|split; [|split]]].
  - rewrite rsi_batch_cases by done. by rewrite decide_False.
  - apply tabulate_wf.
  - apply tabulate_shape.
  - intros r i Hr Hi Hip.
    destruct (lookup_lt_is_Some_2 (rows a) r Hr) as [row Hrow].
    unfold rsi_cells. rewrite (cell_tabulate _ _ _ _ _ row) by done.
    by rewrite rsi_at_lt.
  - intros Hshort. rewrite full_tabulate. apply tabulate_ext.
    intros row i Hi. rewrite rsi_at_lt; [done|lia].
Qed.

Lemma rsi_batch_warm_up_is_sentinel_witness :
  let a : ndarray (@num binary32) :=
    mk_ndarray 3 [Binary32.of_Z <$> [1; 2; 4]%Z;
                  Binary32.of_Z <$> [4; 3; 5]%Z] in
  (1 ≤ 2 ∧ ncols a ≠ 2)
  ∧ ∃ out,
      rsi_batch (Sc:=binary32) (NdArray (Array2D a)) 2 = Ok out
      ∧ wf out ∧ shape out = shape a
      ∧ (∀ r i, r < length (rows a) → i < ncols a → i < 2 →
           cell out r i = Some (nan (Scalar:=binary32)))
      ∧ (ncols a < 2
         → out = cp.full (length (rows a)) (ncols a) (nan (Scalar:=binary32))).
Proof.
  intros a. split; [simpl; lia|].
  apply (rsi_batch_warm_up_is_sentinel binary32 a 2); simpl; lia.
Defined.

(** A zero period never returns a result: the write of the seed value
    to column 0 raises [IndexError] on a matrix without columns, and
    otherwise [alpha = 1.0 / period] raises [ZeroDivisionError]. *)
Theorem rsi_batch_zero_period_raises :
  ∀ (Sc : Scalar) (a : ndarray num),
    rsi_batch (NdArray (Array2D a)) 0
    = Raise (if decide (ncols a = 0) then IndexError else ZeroDivisionError).
Proof.
  intros Sc a. rewrite rsi_batch_array. case_decide as HT.
  - by apply rsi_kernel_eq_period.
  - apply rsi_kernel_zero_period. lia.
Qed.

(** A zero period is not refused by [bollinger_bands_batch].  In
    single precision every window is then empty, its mean and
    standard deviation are not-a-number, and on a matrix with at
    least one column the three outputs are the sentinel everywhere;
    without a column the first write, to column [-1], raises
    [IndexError]. *)
Theorem bollinger_zero_period_is_all_sentinel :
  ∀ (a : ndarray (@num binary32)) (m : spec_float),
    bollinger_bands_batch (Sc:=binary32) (NdArray (Array2D a)) 0 m
    = if decide (ncols a = 0) then Raise IndexError
      else let F := cp.full (length (rows a)) (ncols a) S754_nan in
           Ok (F, F, F).
Proof.
  intros a m. rewrite (bollinger_bands_batch_array (Sc:=binary32)).
  unfold bollinger_kernel. cbv zeta. case_decide as HT.
  - rewrite HT. reflexivity.
  - apply bollinger_loop_zero_period. unfold py_range.
    apply Forall_fmap, Forall_forall. intros k Hk. cbn beta.
    apply elem_of_seq in Hk. unfold compose. lia.
Qed.

(** For every period of at least 1, in every arithmetic,
    [bollinger_bands_batch] returns the three arrays of the reference
    definition: the sentinel below column [period - 1], then the mean
    of the trailing window and the mean plus and minus
    [std_multiplier] times its standard deviation.  Each has the shape
    of the input. *)
Theorem bollinger_bands_batch_refines_spec :
  ∀ (Sc : Scalar) (a : ndarray num) (p : nat) (m : num),
    1 ≤ p →
    ∃ upper middle lower,
      bollinger_bands_batch (NdArray (Array2D a)) p m
      = Ok (upper, middle, lower)
      ∧ (upper, middle, lower) = Spec.bollinger a p m
      ∧ (wf upper ∧ shape upper = shape a)
      ∧ (wf middle ∧ shape middle = shape a)
      ∧ (wf lower ∧ shape lower = shape a).
Proof.
  intros Sc a p m Hp. eexists _, _, _. split; [|split; [reflexivity|]].
  - rewrite bollinger_bands_batch_array. by apply bollinger_kernel_spec.
  - repeat split; apply tabulate_wf || apply tabulate_shape.
Qed.

Lemma bollinger_bands_batch_refines_spec_witness :
  let a : ndarray (@num binary32) :=
    mk_ndarray 3 [Binary32.of_Z <$> [1; 2; 4]%Z; Binary32.of_Z <$> [4; 3; 5]%Z] in
  let m := Binary32.of_Z 2 in
  1 ≤ 2
  ∧ ∃ upper middle lower,
      bollinger_bands_batch (Sc:=binary32) (NdArray (Array2D a)) 2 m
      = Ok (upper, middle, lower)
      ∧ (upper, middle, lower) = Spec.bollinger (Sc:=binary32) a 2 m
      ∧ (wf upper ∧ shape upper = shape a)
      ∧ (wf middle ∧ shape middle = shape a)
      ∧ (wf lower ∧ shape lower = shape a).
Proof.
  intros a m. split; [lia|].
  apply (bollinger_bands_batch_refines_spec binary32 a 2 m). lia.
Defined.

(** On a matrix with at least one column, for every period and in
    every arithmetic, [_ema_gpu] returns the array of the recurrence
    [ema[0] = data[0]], [ema[i] = alpha*data[i] + (1 - alpha)*ema[i-1]]
    with [alpha = 2 / (period + 1)], of the shape of its input. *)
Theorem ema_gpu_refines_spec :
  ∀ (Sc : Scalar) (data : ndarray num) (period : nat),
    0 < ncols data →
    _ema_gpu data period = Ok (Spec.ema data period)
    ∧ wf (Spec.ema data period)
    ∧ shape (Spec.ema data period) = shape data.
Proof.
  intros Sc data period HT. split; [|split].
  - by apply ema_gpu_spec.
  - apply tabulate_wf.
  - apply tabulate_shape.
Qed.

Lemma ema_gpu_refines_spec_witness :
  let a : ndarray (@num binary32) :=
    mk_ndarray 3 [Binary32.of_Z <$> [1; 2; 4]%Z; Binary32.of_Z <$> [4; 3; 5]%Z] in
  0 < ncols a
  ∧ _ema_gpu (Sc:=binary32) a 12 = Ok (Spec.ema (Sc:=binary32) a 12)
  ∧ wf (Spec.ema (Sc:=binary32) a 12)
  ∧ shape (Spec.ema (Sc:=binary32) a 12) = shape a.
Proof.
  intros a. split; [simpl; lia|].
  apply (ema_gpu_refines_spec binary32 a 12). simpl. lia.
Defined.

(** Without a column there is nothing to seed the average with:
    [_ema_gpu] and [macd_batch] raise [IndexError] on every matrix of
    zero columns, whatever the rows and the periods. *)
Theorem no_column_raises_index_error :
  ∀ (Sc : Scalar) (rs : list (list num)) (period fast slow signal : nat),
    _ema_gpu (mk_ndarray 0 rs) period = Raise IndexError
    ∧ macd_batch (NdArray (Array2D (mk_ndarray 0 rs))) fast slow signal
      = Raise IndexError.
Proof.
  intros Sc rs period fast slow signal. split.
  - by apply ema_gpu_no_column.
  - rewrite macd_batch_array. by apply macd_kernel_no_column.
Qed.

(** On a matrix with at least one column [macd_batch] returns, for
    all periods, three arrays of the shape of the input. *)
Theorem macd_batch_keeps_shape :
  ∀ (Sc : Scalar) (a : ndarray num) (fast slow signal : nat),
    0 < ncols a →
    ∃ macd_line signal_line histogram,
      macd_batch (NdArray (Array2D a)) fast slow signal
      = Ok (macd_line, signal_line, histogram)
      ∧ (wf macd_line ∧ shape macd_line = shape a)
      ∧ (wf signal_line ∧ shape signal_line = shape a)
      ∧ (wf histogram ∧ shape histogram = shape a).
Proof.
  intros Sc a fast slow signal HT. eexists _, _, _. split.
  - rewrite macd_batch_array, macd_kernel_spec by done.
    by rewrite macd_tabulate.
  - repeat split; apply tabulate_wf || apply tabulate_shape.
Qed.

Lemma macd_batch_keeps_shape_witness :
  let a : ndarray (@num binary32) :=
    mk_ndarray 3 [Binary32.of_Z <$> [1; 2; 4]%Z; Binary32.of_Z <$> [4; 3; 5]%Z] in
  0 < ncols a
  ∧ ∃ macd_line signal_line histogram,
      macd_batch (Sc:=binary32) (NdArray (Array2D a)) 12 26 9
      = Ok (macd_line, signal_line, histogram)
      ∧ (wf macd_line ∧ shape macd_line = shape a)
      ∧ (wf signal_line ∧ shape signal_line = shape a)
      ∧ (wf histogram ∧ shape histogram = shape a).
Proof.
  intros a. split; [simpl; lia|].
  apply (macd_batch_keeps_shape binary32 a 12 26 9). simpl. lia.
Defined.



(** ** Values in single precision *)

(** In single precision, on a matrix with at least one column, both
    averages of [macd_batch] start from the first price, so at a
    finite first price the MACD line, the signal line and the
    histogram all hold [+0.0] in column 0: MACD has no sentinel
    warm-up. *)
Theorem macd_starts_at_zero :
  ∀ (a : ndarray (@num binary32)) (fast slow signal r : nat)
    (x : spec_float),
    0 < ncols a → cell a r 0 = Some x → Binary32.finite x →
    ∃ macd_line signal_line histogram,
      macd_batch (Sc:=binary32) (NdArray (Array2D a)) fast slow signal
      = Ok (macd_line, signal_line, histogram)
      ∧ cell macd_line r 0 = Some (S754_zero false)
      ∧ cell signal_line r 0 = Some (S754_zero false)
      ∧ cell histogram r 0 = Some (S754_zero false).
Proof.
  intros a fast slow signal r x HT Hcell Hfin.
  unfold cell in Hcell.
  destruct (rows a !! r) as [row|] eqn:Hrow; [|done].
  cbn [mbind option_bind] in Hcell.
  assert (Hm : macd_at (Sc:=binary32) fast slow row 0 = S754_zero false).
  { unfold macd_at. cbn [Spec.ema_at]. unfold Spec.at_. rewrite Hcell.
    by apply b32_sub_self_finite. }
  assert (Hs : signal_at (Sc:=binary32) (ncols a) fast slow signal row 0
               = S754_zero false).
  { unfold signal_at. cbn [Spec.ema_at]. unfold Spec.at_.
    rewrite lookup_fmap_seq by done. exact Hm. }
  eexists _, _, _. split.
  - rewrite (macd_batch_array (Sc:=binary32)).
    rewrite (macd_kernel_spec (Sc:=binary32)) by done.
    by rewrite (macd_tabulate (Sc:=binary32)).
  - rewrite !(cell_tabulate _ _ _ _ _ _ Hrow) by done.
    by rewrite Hm, Hs.
Qed.

Lemma macd_starts_at_zero_witness :
  let a : ndarray (@num binary32) :=
    mk_ndarray 3 [Binary32.of_Z <$> [1; 3; 2]%Z;
                  Binary32.of_Z <$> [5; 4; 6]%Z] in
  (0 < ncols a ∧ cell a 1 0 = Some (Binary32.of_Z 5)
   ∧ Binary32.finite (Binary32.of_Z 5))
  ∧ ∃ macd_line signal_line histogram,
      macd_batch (Sc:=binary32) (NdArray (Array2D a)) 12 26 9
      = Ok (macd_line, signal_line, histogram)
      ∧ cell macd_line 1 0 = Some (S754_zero false)
      ∧ cell signal_line 1 0 = Some (S754_zero false)
      ∧ cell histogram 1 0 = Some (S754_zero false).
Proof.
  intros a.
  assert (HT : 0 < ncols a) by (simpl; lia).
  assert (Hc : cell a 1 0 = Some (Binary32.of_Z 5)) by reflexivity.
  assert (Hf : Binary32.finite (Binary32.of_Z 5)) by reflexivity.
  split; [done|].
  exact (macd_starts_at_zero a 12 26 9 1 _ HT Hc Hf).
Defined.
